(** * SupConLoss (losses.py): supervised contrastive loss

    A shallow embedding of [SupConLoss.__init__] and [SupConLoss.forward]
    and of the torch operations they call, followed by the properties of
    the loss that the specification states.

    Tensors of fixed rank are nested lists (a 2-D tensor is a list of
    rows); [features], whose rank the code inspects, is a shape together
    with its contiguous row-major storage.  Scalars are kept abstract
    behind the class [Scalar], so that [forward] is written once; it is
    read in exact real arithmetic extended with one non-finite value
    ([PR_scalar]) and in IEEE binary32 arithmetic ([binary32_scalar]). *)

From Stdlib Require Import Reals Lra ZArith SpecFloat.
From stdpp Require Import base list strings.

(** ** Exceptions and results *)

(** The three [ValueError]s that [forward] raises itself, under the names
    the specification gives them, and the exceptions raised on its behalf
    by the interpreter and by torch. *)
Inductive error :=
  | ShapeError                 (* ValueError: `features` needs to be [bsz, n_views, ...] /
                                  ValueError: Num of labels does not match num of features *)
  | ArgumentConflictError      (* ValueError: Cannot define both `labels` and `mask` *)
  | InvalidConfigurationError  (* ValueError: Unknown mode: ... *)
  | ZeroDivisionError          (* Python float division by zero *)
  | TorchError.                (* RuntimeError / IndexError raised inside a torch call *)

Inductive result (X : Type) :=
  | Ok (x : X)
  | Err (e : error).
Arguments Ok {X} x.
Arguments Err {X} e.

#[global] Instance result_ret : MRet result := fun _ x => Ok x.
#[global] Instance result_bind : MBind result :=
  fun _ _ f m => match m with Ok x => f x | Err e => Err e end.
#[global] Instance result_fmap : FMap result :=
  fun _ _ f m => match m with Ok x => Ok (f x) | Err e => Err e end.

(** ** Scalars *)

(** The arithmetic of tensor elements and of the Python floats
    [temperature] and [base_temperature].  None of these operations
    raises: torch arithmetic reports division by zero and the logarithm
    of a non-positive number in its result. *)
Class Scalar (A : Type) := {
  fzero : A;
  fone : A;
  fadd : A → A → A;
  fsub : A → A → A;
  fmul : A → A → A;
  fdiv : A → A → A;
  fneg : A → A;
  fexp : A → A;
  flog : A → A;
  fmax : A → A → A;
  of_nat : nat → A;
  is_zero : A → bool;          (* Python's [x == 0] *)
  fone_neq_fzero : fone ≠ fzero
}.

(** ** Tensors *)

Record tensor (X : Type) := Tensor { shape : list nat; data : list X }.
Arguments Tensor {X} shape data.
Arguments shape {X} t.
Arguments data {X} t.

Abbreviation matrix X := (list (list X)).

(** [has_shape m r c]: [m] is an [r] by [c] tensor. *)
Definition has_shape {X} (m : matrix X) (r c : nat) : Prop :=
  length m = r ∧ Forall (λ row, length row = c) m.

(** [m[i, j]] *)
Definition entry {X} (m : matrix X) (i j : nat) : option X :=
  row ← m !! i; row !! j.

Module Torch.
Section ops.
Context {X : Type}.

(** [t.shape[i]] *)
Definition dim (t : tensor X) (i : nat) : nat := nth i (shape t) 0.

Definition numel (t : tensor X) : nat := foldr Nat.mul 1 (shape t).

(** [t.view(d0, d1, -1)]: the last size is inferred; torch refuses to
    infer it when the given sizes multiply to zero. *)
Definition view_infer (t : tensor X) (dims : list nat) : result (tensor X) :=
  let n := foldr Nat.mul 1 dims in
  if n =? 0 then Err TorchError
  else if numel t mod n =? 0 then Ok (Tensor (dims ++ [numel t / n]) (data t))
  else Err TorchError.

(** [t[:, v]] for [t] of shape [[B; V; D]]: row [b] is the storage
    segment of length [D] at offset [(b * V + v) * D]. *)
Definition select_1 (t : tensor X) (v : nat) : matrix X :=
  (λ b, take (dim t 2) (drop ((b * dim t 1 + v) * dim t 2) (data t)))
    <$> seq 0 (dim t 0).

(** [torch.unbind(t, dim=1)] *)
Definition unbind_1 (t : tensor X) : list (matrix X) :=
  select_1 t <$> seq 0 (dim t 1).

(** [torch.cat(ts, dim=0)]; an empty sequence of tensors is refused. *)
Definition cat_0 (ts : list (matrix X)) : result (matrix X) :=
  match ts with
  | [] => Err TorchError
  | _ => Ok (concat ts)
  end.

(** [l.view(-1, 1)] of a 1-D tensor *)
Definition view_col (l : list X) : matrix X := (λ x, [x]) <$> l.

(** [m.T] of a column *)
Definition transpose_col (m : matrix X) : matrix X := [concat m].

(** [l.view(r, c)] of a 1-D tensor *)
Definition view_2 (l : list X) (r c : nat) : result (matrix X) :=
  if length l =? r * c
  then Ok ((λ i, take c (drop (i * c) l)) <$> seq 0 r)
  else Err TorchError.

(** [m.repeat(a, b)] *)
Definition repeat_2 (m : matrix X) (a b : nat) : matrix X :=
  concat (replicate a ((λ row, concat (replicate b row)) <$> m)).

(** [torch.scatter(src, 1, index, value)]: [out[i][index[i][j]] = value].
    torch refuses an index with more rows than [src] and an index entry
    that is not a column of [src]. *)
Definition scatter_row (row : list X) (idx : list nat) (value : X)
  : result (list X) :=
  foldl (λ acc j, row ← acc;
                  if j <? length row then Ok (<[j := value]> row)
                  else Err TorchError)
        (Ok row) idx.

Fixpoint scatter_1 (src : matrix X) (index : matrix nat) (value : X)
  : result (matrix X) :=
  match index, src with
  | [], _ => Ok src
  | _ :: _, [] => Err TorchError
  | idx :: index', row :: src' =>
      row' ← scatter_row row idx value;
      rest ← scatter_1 src' index' value;
      Ok (row' :: rest)
  end.
End ops.

(** Broadcasting of one dimension: equal sizes pair up, a size of one is
    repeated, anything else is refused. *)
Definition broadcast {X Y Z} (f : X → Y → result Z) (xs : list X) (ys : list Y)
  : result (list Z) :=
  if length xs =? length ys then mapM (λ p, f p.1 p.2) (zip xs ys)
  else match xs, ys with
       | [x], _ => mapM (f x) ys
       | _, [y] => mapM (λ x, f x y) xs
       | _, _ => Err TorchError
       end.

(** Element-wise binary operations on 1-D and on 2-D tensors. *)
Definition map2_1 {X Y Z} (f : X → Y → Z) (a : list X) (b : list Y)
  : result (list Z) :=
  broadcast (λ x y, Ok (f x y)) a b.

Definition map2_2 {X Y Z} (f : X → Y → Z) (a : matrix X) (b : matrix Y)
  : result (matrix Z) :=
  broadcast (map2_1 f) a b.

(** [torch.arange(n)] *)
Definition arange (n : nat) : list nat := seq 0 n.

Section scalar_ops.
Context {A : Type} `{Scalar A}.

Definition fsum (l : list A) : A := foldr fadd fzero l.

(** [torch.eye(n)] *)
Definition eye (n : nat) : matrix A :=
  (λ i, (λ j, if i =? j then fone else fzero) <$> seq 0 n) <$> seq 0 n.

(** [torch.eq(a, b).float()] on integer tensors *)
Definition eq_float (a b : matrix Z) : result (matrix A) :=
  map2_2 (λ x y, if (x =? y)%Z then fone else fzero) a b.

(** [torch.ones_like(m)] *)
Definition ones_like (m : matrix A) : matrix A :=
  (λ row : list A, (λ _ : A, fone) <$> row) <$> m.

(** [torch.matmul(a, b.T)]: entry [(i, j)] is the inner product of row
    [i] of [a] with row [j] of [b]. *)
Definition matmul_T (a b : matrix A) : matrix A :=
  (λ ra : list A, (λ rb : list A, fsum (zip_with fmul ra rb)) <$> b) <$> a.

(** [torch.div(m, s)] with a Python scalar *)
Definition div_scalar (m : matrix A) (s : A) : matrix A :=
  (λ row : list A, (λ x, fdiv x s) <$> row) <$> m.

(** [torch.max(m, dim=1, keepdim=True)[0]]; a reduction over an empty
    dimension is refused.  A tensor without rows reaches this call only
    as the 0 by 0 tensor (both sizes are multiples of the batch size). *)
Definition max_1_keepdim (m : matrix A) : result (matrix A) :=
  match m with
  | [] => Err TorchError
  | _ => mapM (λ row, match row with
                      | [] => Err TorchError
                      | x :: xs => Ok [foldl fmax x xs]
                      end) m
  end.

Definition sub_2 (a b : matrix A) : result (matrix A) := map2_2 fsub a b.
Definition mul_2 (a b : matrix A) : result (matrix A) := map2_2 fmul a b.
Definition div_1 (a b : list A) : result (list A) := map2_1 fdiv a b.
Definition exp_2 (m : matrix A) : matrix A := (λ row : list A, fexp <$> row) <$> m.
Definition log_2 (m : matrix A) : matrix A := (λ row : list A, flog <$> row) <$> m.

(** [m.sum(1, keepdim=True)] and [m.sum(1)] *)
Definition sum_1_keepdim (m : matrix A) : matrix A := (λ row : list A, [fsum row]) <$> m.
Definition sum_1 (m : matrix A) : list A := fsum <$> m.

(** [m.mean()] *)
Definition mean (m : matrix A) : A :=
  fdiv (fsum (concat m)) (of_nat (length (concat m))).

(** Python's [x / y] on floats *)
Definition py_div (x y : A) : result A :=
  if is_zero y then Err ZeroDivisionError else Ok (fdiv x y).
End scalar_ops.
End Torch.

Import Torch.

(** ** The loss *)

Section SupConLoss.
Context {A : Type} `{Scalar A}.

Record SupConLoss := {
  temperature : A;
  contrast_mode : string;
  base_temperature : A
}.

(** [SupConLoss.__init__]: the three parameters are stored as given. *)
Definition init (temperature : A) (contrast_mode : string) (base_temperature : A)
  : result SupConLoss :=
  Ok {| temperature := temperature;
        contrast_mode := contrast_mode;
        base_temperature := base_temperature |}.

(** Lines 45-55 of [forward]: the mask before tiling. *)
Definition resolve_mask (batch_size : nat)
    (labels : option (list Z)) (mask : option (matrix A)) : result (matrix A) :=
  match labels, mask with
  | Some _, Some _ => Err ArgumentConflictError
  | None, None => Ok (eye batch_size)
  | Some labels, None =>
      let labels := view_col labels in
      if negb (length labels =? batch_size) then Err ShapeError
      else eq_float labels (transpose_col labels)
  | None, Some mask => Ok mask
  end.

(** The locals of [forward] once the logits are computed (line 71). *)
Record logits_frame := LogitsFrame {
  batch_size : nat;
  mask_pre : matrix A;
  contrast_count : nat;
  contrast_feature : matrix A;
  anchor_feature : matrix A;
  anchor_count : nat;
  anchor_dot_contrast : matrix A
}.

(** Lines 38-42 of [forward]. *)
Definition reshape_features (features : tensor A) : result (tensor A) :=
  if length (shape features) <? 3 then Err ShapeError
  else if 3 <? length (shape features)
  then view_infer features [dim features 0; dim features 1]
  else Ok features.

(** Lines 38-71 of [forward]. *)
Definition compute_logits (self : SupConLoss) (features : tensor A)
    (labels : option (list Z)) (mask : option (matrix A)) : result logits_frame :=
  features ← reshape_features features;
  let batch_size := dim features 0 in
  mask ← resolve_mask batch_size labels mask;
  let contrast_count := dim features 1 in
  contrast_feature ← cat_0 (unbind_1 features);
  '(anchor_feature, anchor_count) ←
    (if bool_decide (contrast_mode self = "one")
     then Ok (select_1 features 0, 1)
     else if bool_decide (contrast_mode self = "all")
     then Ok (contrast_feature, contrast_count)
     else Err InvalidConfigurationError);
  let anchor_dot_contrast :=
    div_scalar (matmul_T anchor_feature contrast_feature) (temperature self) in
  Ok (LogitsFrame batch_size mask contrast_count contrast_feature
                  anchor_feature anchor_count anchor_dot_contrast).

(** Lines 73-74 of [forward]: subtract from every row its maximum
    ([detach] only affects differentiation). *)
Definition stabilize (anchor_dot_contrast : matrix A) : result (matrix A) :=
  logits_max ← max_1_keepdim anchor_dot_contrast;
  sub_2 anchor_dot_contrast logits_max.

(** Lines 88-89 of [forward]. *)
Definition compute_log_prob (logits logits_mask : matrix A) : result (matrix A) :=
  exp_logits ← mul_2 (exp_2 logits) logits_mask;
  sub_2 logits (log_2 (sum_1_keepdim exp_logits)).

(** The locals of [forward] when it returns. *)
Record locals := Locals {
  l_logits_mask : matrix A;
  l_mask : matrix A;
  l_log_prob : matrix A;
  l_mean_log_prob_pos : list A;
  l_loss : A
}.

(** Line 77 of [forward]. *)
Definition tile_mask (fr : logits_frame) : matrix A :=
  repeat_2 (mask_pre fr) (anchor_count fr) (contrast_count fr).

(** Lines 79-84 of [forward]. *)
Definition build_logits_mask (fr : logits_frame) (mask : matrix A)
  : result (matrix A) :=
  scatter_1 (ones_like mask)
            (view_col (arange (batch_size fr * anchor_count fr)))
            fzero.

(** Lines 77-96 of [forward], from the logits on. *)
Definition compute_loss (self : SupConLoss) (fr : logits_frame)
    (logits : matrix A) : result locals :=
  let mask := tile_mask fr in
  logits_mask ← build_logits_mask fr mask;
  mask ← mul_2 mask logits_mask;
  log_prob ← compute_log_prob logits logits_mask;
  weighted ← mul_2 mask log_prob;
  mean_log_prob_pos ← div_1 (sum_1 weighted) (sum_1 mask);
  ratio ← py_div (temperature self) (base_temperature self);
  let loss := fmul (fneg ratio) <$> mean_log_prob_pos in
  loss ← view_2 loss (anchor_count fr) (batch_size fr);
  Ok (Locals logits_mask mask log_prob mean_log_prob_pos (mean loss)).

Definition forward_locals (self : SupConLoss) (features : tensor A)
    (labels : option (list Z)) (mask : option (matrix A)) : result locals :=
  fr ← compute_logits self features labels mask;
  logits ← stabilize (anchor_dot_contrast fr);
  compute_loss self fr logits.

(** [SupConLoss.forward] *)
Definition forward (self : SupConLoss) (features : tensor A)
    (labels : option (list Z)) (mask : option (matrix A)) : result A :=
  l_loss <$> forward_locals self features labels mask.

(** [forward] without lines 73-74: the logits are used as computed. *)
Definition forward_unshifted_locals (self : SupConLoss) (features : tensor A)
    (labels : option (list Z)) (mask : option (matrix A)) : result locals :=
  fr ← compute_logits self features labels mask;
  compute_loss self fr (anchor_dot_contrast fr).

Definition forward_unshifted (self : SupConLoss) (features : tensor A)
    (labels : option (list Z)) (mask : option (matrix A)) : result A :=
  l_loss <$> forward_unshifted_locals self features labels mask.
End SupConLoss.

Arguments SupConLoss A : clear implicits.
Arguments logits_frame A : clear implicits.
Arguments locals A : clear implicits.

(** ** Exact arithmetic *)

(** Real numbers extended with one non-finite value [None], which stands
    for what floating-point arithmetic reports as NaN or an infinity.  It
    arises from a division by zero and from the logarithm of a
    non-positive number, and every operation propagates it.

    This is the arithmetic of the mathematical formula, not that of
    [torch.float32]: there is no rounding, no overflow and no underflow
    (an exponential is never 0), and the one non-finite value absorbs
    where IEEE 754 does not (the maximum with [-inf], the exponential of
    [-inf]).  Statements over [PR] are about finite values, or about a
    non-finite value that both arithmetics propagate alike; the
    floating-point behaviour is stated over [binary32_scalar]. *)
Abbreviation PR := (option R).

Definition pr_lift1 (f : R → R) (x : PR) : PR :=
  match x with Some a => Some (f a) | None => None end.

Definition pr_lift2 (f : R → R → R) (x y : PR) : PR :=
  match x, y with Some a, Some b => Some (f a b) | _, _ => None end.

Definition pr_div (x y : PR) : PR :=
  match x, y with
  | Some a, Some b => if Req_dec_T b 0 then None else Some (a / b)%R
  | _, _ => None
  end.

Definition pr_log (x : PR) : PR :=
  match x with
  | Some a => if Rlt_dec 0 a then Some (ln a) else None
  | None => None
  end.

Definition pr_is_zero (x : PR) : bool :=
  match x with
  | Some a => if Req_dec_T a 0 then true else false
  | None => false
  end.

#[global] Instance PR_scalar : Scalar PR := {|
  fzero := Some 0%R;
  fone := Some 1%R;
  fadd := pr_lift2 Rplus;
  fsub := pr_lift2 Rminus;
  fmul := pr_lift2 Rmult;
  fdiv := pr_div;
  fneg := pr_lift1 Ropp;
  fexp := pr_lift1 exp;
  flog := pr_log;
  fmax := pr_lift2 Rmax;
  of_nat := λ n, Some (INR n);
  is_zero := pr_is_zero;
  fone_neq_fzero := λ E, R1_neq_R0 (f_equal (default 1%R) E)
|}.

(** ** IEEE binary32 arithmetic *)

(** [torch.float32] with the Standard Library's specification of IEEE 754
    ([prec = 24], [emax = 128]).  The exponential and the logarithm are
    parameters: nothing is assumed about them. *)
Definition binary32_max (x y : spec_float) : spec_float :=
  match SFcompare x y with
  | Some Lt => y
  | Some _ => x
  | None => S754_nan
  end.

Definition binary32_is_zero (x : spec_float) : bool :=
  match x with S754_zero _ => true | _ => false end.

Definition binary32_scalar (exp32 log32 : spec_float → spec_float)
  : Scalar spec_float := {|
  fzero := S754_zero false;
  fone := S754_finite false 8388608 (-23);
  fadd := SFadd 24 128;
  fsub := SFsub 24 128;
  fmul := SFmul 24 128;
  fdiv := SFdiv 24 128;
  fneg := SFopp;
  fexp := exp32;
  flog := log32;
  fmax := binary32_max;
  of_nat := λ n, binary_normalize 24 128 (Z.of_nat n) 0 false;
  is_zero := binary32_is_zero;
  fone_neq_fzero := λ E, eq_ind (S754_finite false 8388608 (-23))
                           (λ x, if x is S754_finite _ _ _ then True else False)
                           I _ E
|}.

(** NaN or an infinity. *)
Definition nonfinite (x : spec_float) : bool :=
  match x with
  | S754_infinity _ | S754_nan => true
  | _ => false
  end.

(** ** Predicates used in the statements *)

(** The input contract of [forward]'s docstring for a batch of [B]
    samples with [V] views: [features] of shape [[B; V; ...]], at most one
    of [labels] (one per sample) and [mask] ([B] by [B]). *)
Definition well_formed {A} (features : tensor A)
    (labels : option (list Z)) (mask : option (matrix A)) (B V : nat) : Prop :=
  3 ≤ length (shape features) ∧ dim features 0 = B ∧ dim features 1 = V ∧
  1 ≤ B ∧ 1 ≤ V ∧
  match labels, mask with
  | None, None => True
  | Some l, None => length l = B
  | None, Some m => has_shape m B B
  | Some _, Some _ => False
  end.

(** The reshape of line 42 succeeds: there is nothing to reshape, or the
    leading two sizes are not zero. *)
Definition flattens {A} (features : tensor A) : Prop :=
  length (shape features) ≤ 3 ∨ dim features 0 * dim features 1 ≠ 0.

Definition valid_mode (mode : string) : Prop := mode = "one" ∨ mode = "all".

(** A row of weights with at least one positive: every weight is a
    non-negative real and one of them is not zero. *)
Definition has_positive (row : list PR) : Prop :=
  Forall (λ x : PR, ∃ b : R, x = Some b ∧ (0 <= b)%R) row ∧
  Exists (λ x : PR, ∃ b : R, x = Some b ∧ (0 < b)%R) row.

(** A [B] by [B] mask of weights in which every sample is a positive of
    itself: the weights are non-negative reals and the diagonal is not
    zero. *)
Definition positive_diagonal (B : nat) (m : matrix PR) : Prop :=
  (∀ i j, i < B → j < B → ∃ b : R, entry m i j = Some (Some b) ∧ (0 <= b)%R) ∧
  (∀ i, i < B → ∃ b : R, entry m i i = Some (Some b) ∧ (0 < b)%R).

(** The tensor that line 42 leaves in [features]. *)
Definition flatten {A} (features : tensor A) : tensor A :=
  if 3 <? length (shape features)
  then Tensor [dim features 0; dim features 1;
               numel features / (dim features 0 * dim features 1)]
              (data features)
  else features.

(** The mask that line 53 builds from the labels. *)
Definition same_class {A} `{Scalar A} (l : list Z) : matrix A :=
  (λ li, (λ lj, if (li =? lj)%Z then fone else fzero) <$> l) <$> l.

(** What lines 45-52 accept: not both [labels] and [mask], and as many
    labels as samples. *)
Definition labels_mask_ok {A} (b : nat)
    (labels : option (list Z)) (mask : option (matrix A)) : Prop :=
  match labels, mask with
  | Some _, Some _ => False
  | Some l, None => length l = b
  | _, _ => True
  end.

(** The maximum of a non-empty row, as [max_1_keepdim] folds it. *)
Definition row_max {A} `{Scalar A} (row : list A) : A :=
  match row with
  | [] => fzero
  | x :: xs => foldl fmax x xs
  end.

(** A row of logits after line 74. *)
Definition shift_row {A} `{Scalar A} (row : list A) : list A :=
  (λ x, fsub x (row_max row)) <$> row.

(** A row of [log_prob] (lines 88-89) from the row's logits and its row
    of [logits_mask]. *)
Definition row_log_prob {A} `{Scalar A} (logits logits_mask : list A) : list A :=
  let exp_logits := zip_with fmul (fexp <$> logits) logits_mask in
  (λ x, fsub x (flog (fsum exp_logits))) <$> logits.

(** [raises_only P r]: whatever [r] raises satisfies [P]. *)
Definition raises_only {X} (P : error → Prop) (r : result X) : Prop :=
  ∀ e, r = Err e → P e.

(** * Properties *)

(** ** The result monad, [mapM] and broadcasting *)

Section mapM_lemmas.
Context {X Y : Type}.

Lemma mapM_pure (f : X → result Y) (g : X → Y) (l : list X) :
  (∀ x, x ∈ l → f x = Ok (g x)) → mapM f l = Ok (g <$> l).
Proof.
  induction l as [|x l IH]; intros Hf; [done|].
  cbn. rewrite Hf by left. cbn.
  rewrite IH; [done|]. intros y Hy. apply Hf. by right.
Qed.

Lemma mapM_length (f : X → result Y) (l : list X) (k : list Y) :
  mapM f l = Ok k → length k = length l.
Proof.
  revert k. induction l as [|x l IH]; intros k; cbn.
  - by intros [= <-].
  - destruct (f x) as [y|]; cbn; [|done].
    destruct (mapM f l) as [k'|]; cbn; [|done].
    intros [= <-]. cbn. f_equal. by apply IH.
Qed.

End mapM_lemmas.

Section broadcast_lemmas.
Context {X Y Z : Type}.

Lemma broadcast_zip (f : X → Y → result Z) (g : X → Y → Z) xs ys :
  length xs = length ys →
  (∀ i x y, xs !! i = Some x → ys !! i = Some y → f x y = Ok (g x y)) →
  broadcast f xs ys = Ok (zip_with g xs ys).
Proof.
  intros Hlen Hf. unfold broadcast.
  rewrite (proj2 (Nat.eqb_eq _ _) Hlen).
  clear Hlen. revert ys Hf. induction xs as [|x xs IH]; intros [|y ys] Hf; try done.
  cbn. rewrite (Hf 0 x y) by done. cbn.
  rewrite IH; [done|]. intros i. apply (Hf (S i)).
Qed.

Lemma broadcast_r (f : X → Y → result Z) (g : X → Y → Z) xs y :
  (∀ x, x ∈ xs → f x y = Ok (g x y)) →
  broadcast f xs [y] = Ok ((λ x, g x y) <$> xs).
Proof.
  intros Hf. unfold broadcast.
  destruct xs as [|x [|x' xs]].
  - done.
  - cbn. rewrite Hf by left. done.
  - by apply (mapM_pure (λ x, f x y) (λ x, g x y)).
Qed.

Lemma broadcast_l (f : X → Y → result Z) (g : X → Y → Z) x ys :
  (∀ y, y ∈ ys → f x y = Ok (g x y)) →
  broadcast f [x] ys = Ok (g x <$> ys).
Proof.
  intros Hf. unfold broadcast.
  destruct ys as [|y [|y' ys]].
  - done.
  - cbn. rewrite Hf by left. done.
  - by apply (mapM_pure (f x) (g x)).
Qed.
End broadcast_lemmas.

(** ** Which exceptions each stage can raise *)

Section raises.
Context {A : Type} `{Scalar A}.
Implicit Types P : error → Prop.

Lemma raises_only_Ok {X} P (x : X) : raises_only P (Ok x).
Proof. by intros e. Qed.

Lemma raises_only_Err {X} P e : P e → raises_only P (@Err X e).
Proof. by intros HP e' [= <-]. Qed.

Lemma raises_only_bind {X Y} P (m : result X) (f : X → result Y) :
  raises_only P m → (∀ x, raises_only P (f x)) → raises_only P (m ≫= f).
Proof.
  intros Hm Hf e. destruct m as [x|e']; cbn.
  - apply Hf.
  - intros [= <-]. by apply Hm.
Qed.

Lemma raises_only_mapM {X Y} P (f : X → result Y) l :
  (∀ x, raises_only P (f x)) → raises_only P (mapM f l).
Proof.
  intros Hf. induction l as [|x l IH]; [by intros e|].
  apply raises_only_bind; [done|]. intros y.
  apply raises_only_bind; [done|]. intros k. by intros e.
Qed.

Lemma raises_only_broadcast {X Y Z} P (f : X → Y → result Z) xs ys :
  P TorchError → (∀ x y, raises_only P (f x y)) →
  raises_only P (broadcast f xs ys).
Proof.
  intros HP Hf. unfold broadcast.
  destruct (length xs =? length ys).
  { apply raises_only_mapM. intros [x y]. apply Hf. }
  destruct xs as [|x [|x' xs]], ys as [|y [|y' ys]];
    try (by apply raises_only_Err);
    try (by apply raises_only_mapM; intros ?; apply Hf).
Qed.

Lemma raises_only_map2_1 {X Y Z} P (f : X → Y → Z) a b :
  P TorchError → raises_only P (map2_1 f a b).
Proof. intros HP. apply raises_only_broadcast; [done|]. by intros x y e. Qed.

Lemma raises_only_map2_2 {X Y Z} P (f : X → Y → Z) a b :
  P TorchError → raises_only P (map2_2 f a b).
Proof.
  intros HP. apply raises_only_broadcast; [done|].
  intros x y. by apply raises_only_map2_1.
Qed.

Lemma raises_only_scatter_row {X} P (row : list X) idx value :
  P TorchError → raises_only P (scatter_row row idx value).
Proof.
  intros HP. unfold scatter_row.
  assert (Hacc : raises_only P (Ok row)) by apply raises_only_Ok.
  revert Hacc. generalize (Ok row). induction idx as [|j idx IH]; intros acc Hacc; [done|].
  apply IH. apply raises_only_bind; [done|]. intros r.
  destruct (decide (j < length r)) as [Hj|Hj].
  - rewrite (proj2 (Nat.ltb_lt _ _) Hj). apply raises_only_Ok.
  - rewrite (proj2 (Nat.ltb_nlt _ _) Hj). by apply raises_only_Err.
Qed.

Lemma raises_only_scatter_1 {X} P (src : matrix X) index value :
  P TorchError → raises_only P (scatter_1 src index value).
Proof.
  intros HP. revert src. induction index as [|idx index IH]; intros src.
  - destruct src; apply raises_only_Ok.
  - destruct src as [|row src]; [by apply raises_only_Err|]. cbn.
    apply raises_only_bind; [by apply raises_only_scatter_row|]. intros row'.
    apply raises_only_bind; [apply IH|]. intros rest. apply raises_only_Ok.
Qed.

Lemma raises_only_stabilize P (m : matrix A) :
  P TorchError → raises_only P (stabilize m).
Proof.
  intros HP. unfold stabilize. apply raises_only_bind.
  - unfold max_1_keepdim. destruct m as [|r m]; [by apply raises_only_Err|].
    apply raises_only_mapM. intros [|x xs];
      [by apply raises_only_Err | apply raises_only_Ok].
  - intros c. by apply raises_only_map2_2.
Qed.

Lemma raises_only_compute_log_prob P (logits logits_mask : matrix A) :
  P TorchError → raises_only P (compute_log_prob logits logits_mask).
Proof.
  intros HP. unfold compute_log_prob.
  apply raises_only_bind; [by apply raises_only_map2_2|].
  intros e. by apply raises_only_map2_2.
Qed.

Lemma raises_only_compute_loss P self fr (logits : matrix A) :
  P TorchError → P ZeroDivisionError →
  raises_only P (compute_loss self fr logits).
Proof.
  intros HT HZ. unfold compute_loss, build_logits_mask, mul_2, div_1.
  apply raises_only_bind; [by apply raises_only_scatter_1|]. intros lm.
  apply raises_only_bind; [by apply raises_only_map2_2|]. intros mk.
  apply raises_only_bind; [by apply raises_only_compute_log_prob|]. intros lp.
  apply raises_only_bind; [by apply raises_only_map2_2|]. intros w.
  apply raises_only_bind; [by apply raises_only_map2_1|]. intros mlpp.
  apply raises_only_bind.
  { unfold py_div. destruct (is_zero _);
      [by apply raises_only_Err | apply raises_only_Ok]. }
  intros ratio. apply raises_only_bind; [|intros; apply raises_only_Ok].
  unfold view_2. destruct (_ =? _);
    [apply raises_only_Ok | by apply raises_only_Err].
Qed.
End raises.

(** ** Lines 38-66: validation *)

Section validation.
Context {A : Type} `{Scalar A}.
Implicit Types (self : SupConLoss A) (features : tensor A).
Implicit Types (labels : option (list Z)) (mask : option (matrix A)).

Lemma shape_cons2 features :
  2 ≤ length (shape features) →
  ∃ rest, shape features = dim features 0 :: dim features 1 :: rest.
Proof.
  unfold dim. destruct (shape features) as [|b [|v rest]]; cbn; try lia.
  intros _. by exists rest.
Qed.

Lemma reshape_features_rank features :
  length (shape features) < 3 → reshape_features features = Err ShapeError.
Proof.
  intros Hr. unfold reshape_features.
  by rewrite (proj2 (Nat.ltb_lt _ _) Hr).
Qed.

Lemma reshape_features_ambiguous features :
  3 ≤ length (shape features) → ¬ flattens features →
  reshape_features features = Err TorchError.
Proof.
  intros Hr Hf. unfold reshape_features, flattens in *.
  rewrite (proj2 (Nat.ltb_ge _ _) Hr).
  assert (3 < length (shape features)) as Hr' by lia.
  rewrite (proj2 (Nat.ltb_lt _ _) Hr').
  unfold view_infer. cbn [foldr].
  assert (dim features 0 * (dim features 1 * 1) = 0) as -> by lia.
  done.
Qed.

Lemma reshape_features_flatten features :
  3 ≤ length (shape features) → flattens features →
  reshape_features features = Ok (flatten features).
Proof.
  intros Hr Hf. unfold reshape_features, flatten.
  rewrite (proj2 (Nat.ltb_ge _ _) Hr).
  destruct (3 <? length (shape features)) eqn:Hr'; [|done].
  apply Nat.ltb_lt in Hr'.
  destruct Hf as [Hf|Hf]; [lia|].
  destruct (shape_cons2 features) as [rest Hs]; [lia|].
  unfold view_infer, numel. rewrite Hs. cbn [foldr app].
  set (b := dim features 0) in *. set (v := dim features 1) in *.
  replace (b * (v * 1)) with (b * v) by lia.
  rewrite (proj2 (Nat.eqb_neq _ _) Hf).
  replace (b * (v * foldr Nat.mul 1 rest)) with (foldr Nat.mul 1 rest * (b * v)) by lia.
  rewrite Nat.Div0.mod_mul. done.
Qed.

Lemma flatten_dim_0 features :
  3 ≤ length (shape features) → dim (flatten features) 0 = dim features 0.
Proof. intros Hr. unfold flatten. by destruct (3 <? _). Qed.

Lemma flatten_dim_1 features :
  3 ≤ length (shape features) → dim (flatten features) 1 = dim features 1.
Proof. intros Hr. unfold flatten. by destruct (3 <? _). Qed.

Lemma concat_view_col {X} (l : list X) : concat (view_col l) = l.
Proof. induction l as [|x l IH]; [done|]. cbn. by f_equal. Qed.

Lemma eq_float_labels (l : list Z) :
  eq_float (view_col l) (transpose_col (view_col l)) = Ok (same_class l).
Proof.
  unfold eq_float, transpose_col, map2_2. rewrite concat_view_col.
  rewrite (broadcast_r _
    (λ (r : list Z) (c : list Z),
       (λ lj, if (default 0%Z (head r) =? lj)%Z then fone else fzero) <$> c)).
  - unfold same_class, view_col. rewrite <- list_fmap_compose. done.
  - intros r [x [-> _]]%list_elem_of_fmap. unfold map2_1.
    by rewrite (broadcast_l _ (λ x y, if (x =? y)%Z then fone else fzero)).
Qed.

Lemma length_unbind_1 features : length (unbind_1 features) = dim features 1.
Proof. unfold unbind_1. by rewrite length_fmap, length_seq. Qed.

Lemma cat_0_unbind_1 features :
  cat_0 (unbind_1 features) =
  if dim features 1 =? 0 then Err TorchError
  else Ok (concat (unbind_1 features)).
Proof.
  pose proof (length_unbind_1 features) as Hl.
  destruct (unbind_1 features) as [|s ss]; cbn in *.
  - by rewrite <- Hl.
  - by rewrite <- Hl.
Qed.
End validation.

(** ** Shapes *)

Section concat_lemmas.
Context {X : Type}.

Lemma length_concat_const (ls : matrix X) b :
  Forall (λ l, length l = b) ls → length (concat ls) = length ls * b.
Proof.
  induction 1 as [|l ls Hl _ IH]; [done|].
  cbn. rewrite length_app, IH, Hl. done.
Qed.

Lemma Forall_concat_intro (P : X → Prop) (ls : matrix X) :
  Forall (Forall P) ls → Forall P (concat ls).
Proof.
  induction 1 as [|l ls Hl _ IH]; [done|].
  cbn. by apply Forall_app.
Qed.

End concat_lemmas.

Section shapes.
Context {X : Type}.

Lemma has_shape_lookup (m : matrix X) r c i row :
  has_shape m r c → m !! i = Some row → length row = c.
Proof. intros [_ Hm] Hi. by eapply (proj1 (Forall_lookup _ _) Hm). Qed.

Lemma has_shape_entry (m : matrix X) r c i j :
  has_shape m r c → i < r → j < c → is_Some (entry m i j).
Proof.
  intros [Hr Hc] Hi Hj. unfold entry.
  destruct (lookup_lt_is_Some_2 m i) as [row Hrow]; [lia|].
  rewrite Hrow. cbn. apply lookup_lt_is_Some_2.
  rewrite (proj1 (Forall_lookup _ _) Hc _ _ Hrow). done.
Qed.

Lemma length_select_1 (t : tensor X) v : length (select_1 t v) = dim t 0.
Proof. unfold select_1. by rewrite length_fmap, length_seq. Qed.

Lemma length_concat_unbind_1 (t : tensor X) :
  length (concat (unbind_1 t)) = dim t 1 * dim t 0.
Proof.
  rewrite (length_concat_const _ (dim t 0)).
  - unfold unbind_1. by rewrite length_fmap, length_seq.
  - unfold unbind_1. apply Forall_fmap, Forall_forall. intros v _.
    apply length_select_1.
Qed.

Lemma has_shape_repeat_2 (m : matrix X) r c a b :
  has_shape m r c → has_shape (repeat_2 m a b) (a * r) (b * c).
Proof.
  intros [Hr Hc]. unfold repeat_2.
  assert (Hrow : Forall (λ row : list X, length row = b * c)
                    ((λ row, concat (replicate b row)) <$> m)).
  { apply Forall_fmap. eapply Forall_impl; [exact Hc|]. intros row Hrow. cbn.
    rewrite (length_concat_const _ c).
    - by rewrite length_replicate.
    - apply Forall_forall. by intros x [-> _]%elem_of_replicate. }
  split.
  - rewrite (length_concat_const _ r).
    + by rewrite length_replicate.
    + apply Forall_forall. intros x [-> _]%elem_of_replicate.
      by rewrite length_fmap.
  - apply Forall_concat_intro, Forall_forall.
    by intros x [-> _]%elem_of_replicate.
Qed.
End shapes.

Section scalar_shapes.
Context {A : Type} `{Scalar A}.

Lemma has_shape_matmul_T (a b : matrix A) :
  has_shape (matmul_T a b) (length a) (length b).
Proof.
  unfold matmul_T. split; [by rewrite length_fmap|].
  apply Forall_fmap, Forall_forall. intros ra _. cbn. by rewrite length_fmap.
Qed.

Lemma has_shape_div_scalar (m : matrix A) s r c :
  has_shape m r c → has_shape (div_scalar m s) r c.
Proof.
  intros [Hr Hc]. unfold div_scalar. split; [by rewrite length_fmap|].
  apply Forall_fmap. eapply Forall_impl; [exact Hc|].
  intros row Hrow. cbn. by rewrite length_fmap.
Qed.

Lemma has_shape_ones_like (m : matrix A) r c :
  has_shape m r c → has_shape (ones_like m) r c.
Proof.
  intros [Hr Hc]. unfold ones_like. split; [by rewrite length_fmap|].
  apply Forall_fmap. eapply Forall_impl; [exact Hc|].
  intros row Hrow. cbn. by rewrite length_fmap.
Qed.

Lemma has_shape_eye n : has_shape (eye (A:=A) n) n n.
Proof.
  unfold eye. split; [by rewrite length_fmap, length_seq|].
  apply Forall_fmap, Forall_forall. intros i _. cbn.
  by rewrite length_fmap, length_seq.
Qed.

Lemma has_shape_same_class (l : list Z) :
  has_shape (same_class (A:=A) l) (length l) (length l).
Proof.
  unfold same_class. split; [by rewrite length_fmap|].
  apply Forall_fmap, Forall_forall. intros i _. cbn. by rewrite length_fmap.
Qed.
End scalar_shapes.

(** ** Lines 38-71: the logits frame *)

Section logits.
Context {A : Type} `{Scalar A}.
Implicit Types (self : SupConLoss A) (features : tensor A).
Implicit Types (labels : option (list Z)) (mask : option (matrix A)).

Lemma reshape_features_inv features f :
  reshape_features features = Ok f →
  3 ≤ length (shape features) ∧ flattens features ∧ f = flatten features.
Proof.
  intros Hf.
  destruct (decide (length (shape features) < 3)) as [Hr|Hr].
  { by rewrite reshape_features_rank in Hf. }
  assert (flattens features) as Hfl.
  { unfold flattens.
    destruct (decide (length (shape features) ≤ 3)); [by left|].
    destruct (decide (dim features 0 * dim features 1 = 0)) as [Hz|Hz];
      [|by right].
    rewrite reshape_features_ambiguous in Hf; [done|lia|].
    unfold flattens. lia. }
  rewrite reshape_features_flatten in Hf by (done || lia).
  injection Hf as <-. split; [lia|done].
Qed.

(** Past the rank check and the reshape, [compute_logits] resolves the
    mask, concatenates the views and selects the anchors. *)
Lemma compute_logits_flat self features labels mask :
  3 ≤ length (shape features) → flattens features →
  let f := flatten features in
  let cf := concat (unbind_1 f) in
  let T := temperature self in
  compute_logits self features labels mask =
    (m ← resolve_mask (dim features 0) labels mask;
     if dim features 1 =? 0 then Err TorchError
     else if bool_decide (contrast_mode self = "one")
     then Ok (LogitsFrame (dim features 0) m (dim features 1) cf
                (select_1 f 0) 1 (div_scalar (matmul_T (select_1 f 0) cf) T))
     else if bool_decide (contrast_mode self = "all")
     then Ok (LogitsFrame (dim features 0) m (dim features 1) cf
                cf (dim features 1) (div_scalar (matmul_T cf cf) T))
     else Err InvalidConfigurationError).
Proof.
  intros Hr Hfl f cf T. unfold compute_logits.
  assert (dim f 0 = dim features 0) as E0 by by apply flatten_dim_0.
  assert (dim f 1 = dim features 1) as E1 by by apply flatten_dim_1.
  rewrite reshape_features_flatten by done. cbn [mbind result_bind].
  fold f. rewrite cat_0_unbind_1, !E0, !E1.
  destruct (resolve_mask _ _ _) as [m|e]; [|done]. cbn [mbind result_bind].
  destruct (dim features 1 =? 0); [done|]. cbn [mbind result_bind]. fold cf.
  destruct (bool_decide (contrast_mode self = "one")); [done|].
  by destruct (bool_decide (contrast_mode self = "all")).
Qed.

Lemma compute_logits_rank self features labels mask :
  length (shape features) < 3 →
  compute_logits self features labels mask = Err ShapeError.
Proof.
  intros Hr. unfold compute_logits. by rewrite reshape_features_rank.
Qed.

Lemma compute_logits_ambiguous self features labels mask :
  3 ≤ length (shape features) → ¬ flattens features →
  compute_logits self features labels mask = Err TorchError.
Proof.
  intros Hr Hf. unfold compute_logits.
  by rewrite reshape_features_ambiguous.
Qed.

Lemma resolve_mask_well_formed b labels mask :
  match labels, mask with
  | None, None => True
  | Some l, None => length l = b
  | None, Some m => has_shape m b b
  | Some _, Some _ => False
  end →
  ∃ m0, resolve_mask b labels mask = Ok m0 ∧ has_shape m0 b b.
Proof.
  destruct labels as [l|], mask as [m|]; cbn; intros Hw; try done.
  - unfold view_col at 1. rewrite length_fmap, Hw, Nat.eqb_refl. cbn.
    rewrite eq_float_labels. eexists; split; [done|].
    rewrite <- Hw. apply has_shape_same_class.
  - by exists m.
  - exists (eye b). split; [done|apply has_shape_eye].
Qed.

(** What a frame returned by [compute_logits] satisfies. *)
Lemma compute_logits_inv self features labels mask fr :
  compute_logits self features labels mask = Ok fr →
  3 ≤ length (shape features) ∧ flattens features ∧
  batch_size fr = dim features 0 ∧ contrast_count fr = dim features 1 ∧
  dim features 1 ≠ 0 ∧
  resolve_mask (dim features 0) labels mask = Ok (mask_pre fr) ∧
  valid_mode (contrast_mode self) ∧
  anchor_count fr =
    (if bool_decide (contrast_mode self = "one") then 1 else dim features 1) ∧
  has_shape (anchor_dot_contrast fr)
    (anchor_count fr * dim features 0) (dim features 1 * dim features 0).
Proof.
  intros Hfr.
  assert (3 ≤ length (shape features) ∧ flattens features) as [Hr Hfl].
  { unfold compute_logits in Hfr.
    destruct (reshape_features features) as [f|] eqn:Hf; [|done].
    by apply reshape_features_inv in Hf as (? & ? & _). }
  rewrite compute_logits_flat in Hfr by done. cbn zeta in Hfr.
  destruct (resolve_mask _ _ _) as [m|] eqn:Hm; [|done].
  cbn [mbind result_bind] in Hfr.
  destruct (dim features 1 =? 0) eqn:HV; [done|]. apply Nat.eqb_neq in HV.
  pose proof (length_concat_unbind_1 (flatten features)) as Hcf.
  rewrite flatten_dim_0, flatten_dim_1 in Hcf by done.
  destruct (bool_decide (contrast_mode self = "one")) eqn:Hone.
  { injection Hfr as <-. cbn. apply bool_decide_eq_true in Hone.
    split_and!; try done; [by left|].
    apply has_shape_div_scalar. rewrite Nat.add_0_r.
    rewrite <- Hcf, <- (flatten_dim_0 features) by done.
    rewrite <- (length_select_1 (flatten features) 0) at 1.
    apply has_shape_matmul_T. }
  destruct (bool_decide (contrast_mode self = "all")) eqn:Hall; [|done].
  injection Hfr as <-. cbn. apply bool_decide_eq_true in Hall.
  split_and!; try done; [by right|].
  apply has_shape_div_scalar. rewrite <- Hcf. apply has_shape_matmul_T.
Qed.

(** A well-formed call with a known mode gets past line 71. *)
Lemma compute_logits_ok self features labels mask B V :
  well_formed features labels mask B V → valid_mode (contrast_mode self) →
  ∃ fr, compute_logits self features labels mask = Ok fr ∧
        has_shape (mask_pre fr) B B.
Proof.
  intros (Hr & HB & HV & HB1 & HV1 & Hlm) Hmode.
  assert (flattens features) as Hfl by (unfold flattens; right; lia).
  rewrite compute_logits_flat by done. cbn zeta.
  destruct (resolve_mask_well_formed B labels mask Hlm) as (m0 & Hm0 & Hsh).
  rewrite HB, Hm0. cbn [mbind result_bind].
  rewrite (proj2 (Nat.eqb_neq (dim features 1) 0)) by lia.
  destruct Hmode as [Hm|Hm]; rewrite Hm; cbn; eauto.
Qed.
End logits.

(** ** Which exception [forward] raises *)

Section errors.
Context {A : Type} `{Scalar A}.
Implicit Types (self : SupConLoss A) (features : tensor A).
Implicit Types (labels : option (list Z)) (mask : option (matrix A)).

Lemma forward_logits_Err self features labels mask e :
  compute_logits self features labels mask = Err e →
  forward self features labels mask = Err e.
Proof. intros He. unfold forward, forward_locals. by rewrite He. Qed.

Lemma forward_logits_Ok self features labels mask fr :
  compute_logits self features labels mask = Ok fr →
  raises_only (λ e, e = TorchError ∨ e = ZeroDivisionError)
              (forward self features labels mask).
Proof.
  intros Hfr e. unfold forward, forward_locals. rewrite Hfr.
  cbn [mbind result_bind].
  destruct (stabilize _) as [logits|e1] eqn:Hs; cbn [mbind result_bind].
  - destruct (compute_loss _ _ _) as [loc|e2] eqn:Hl; [done|].
    cbn. intros [= <-].
    exact (raises_only_compute_loss (λ e, e = TorchError ∨ e = ZeroDivisionError)
             self fr logits (or_introl eq_refl) (or_intror eq_refl) _ Hl).
  - cbn. intros [= <-]. left.
    exact (raises_only_stabilize (λ e, e = TorchError) _ eq_refl _ Hs).
Qed.

Lemma resolve_mask_ok b labels mask :
  labels_mask_ok b labels mask → ∃ m0, resolve_mask b labels mask = Ok m0.
Proof.
  destruct labels as [l|], mask as [m|]; cbn; intros Hw; try done; eauto.
  unfold view_col at 1. rewrite length_fmap, Hw, Nat.eqb_refl. cbn.
  rewrite eq_float_labels. eauto.
Qed.

Lemma resolve_mask_Ok_inv b labels mask m0 :
  resolve_mask b labels mask = Ok m0 → labels_mask_ok b labels mask.
Proof.
  destruct labels as [l|], mask as [m|]; cbn; try done.
  unfold view_col at 1. rewrite length_fmap.
  destruct (length l =? b) eqn:E; [|done]. by apply Nat.eqb_eq in E.
Qed.

Lemma resolve_mask_Err_inv b labels mask e :
  resolve_mask b labels mask = Err e →
  (e = ArgumentConflictError ∧ is_Some labels ∧ is_Some mask) ∨
  (e = ShapeError ∧ ∃ l, labels = Some l ∧ mask = None ∧ length l ≠ b).
Proof.
  destruct labels as [l|], mask as [m|]; cbn; try done.
  - intros [= <-]. left. eauto.
  - unfold view_col at 1. rewrite length_fmap.
    destruct (length l =? b) eqn:E; cbn.
    + by rewrite eq_float_labels.
    + intros [= <-]. right. split; [done|]. exists l.
      by apply Nat.eqb_neq in E.
Qed.

(** The outcome of a call, stage by stage. *)
Lemma forward_resolve_Err self features labels mask e :
  3 ≤ length (shape features) → flattens features →
  resolve_mask (dim features 0) labels mask = Err e →
  forward self features labels mask = Err e.
Proof.
  intros Hr Hfl He. apply forward_logits_Err.
  rewrite compute_logits_flat by done. cbn zeta. by rewrite He.
Qed.

Lemma forward_no_views self features labels mask :
  3 ≤ length (shape features) → flattens features →
  labels_mask_ok (dim features 0) labels mask → dim features 1 = 0 →
  forward self features labels mask = Err TorchError.
Proof.
  intros Hr Hfl [m0 Hm]%resolve_mask_ok HV. apply forward_logits_Err.
  rewrite compute_logits_flat by done. cbn zeta. by rewrite Hm, HV.
Qed.

Lemma forward_unknown_mode self features labels mask :
  3 ≤ length (shape features) → flattens features →
  labels_mask_ok (dim features 0) labels mask → dim features 1 ≠ 0 →
  ¬ valid_mode (contrast_mode self) →
  forward self features labels mask = Err InvalidConfigurationError.
Proof.
  intros Hr Hfl [m0 Hm]%resolve_mask_ok HV Hmode. apply forward_logits_Err.
  rewrite compute_logits_flat by done. cbn zeta. rewrite Hm.
  cbn [mbind result_bind]. rewrite (proj2 (Nat.eqb_neq _ _) HV).
  unfold valid_mode in Hmode.
  rewrite !bool_decide_eq_false_2; [done|naive_solver..].
Qed.

Lemma forward_known_mode self features labels mask :
  3 ≤ length (shape features) → flattens features →
  labels_mask_ok (dim features 0) labels mask → dim features 1 ≠ 0 →
  valid_mode (contrast_mode self) →
  raises_only (λ e, e = TorchError ∨ e = ZeroDivisionError)
              (forward self features labels mask).
Proof.
  intros Hr Hfl [m0 Hm]%resolve_mask_ok HV Hmode.
  assert (∃ fr, compute_logits self features labels mask = Ok fr) as [fr Hfr];
    [|by eapply forward_logits_Ok].
  rewrite compute_logits_flat by done. cbn zeta. rewrite Hm.
  cbn [mbind result_bind]. rewrite (proj2 (Nat.eqb_neq _ _) HV).
  destruct Hmode as [->| ->]; cbn; eauto.
Qed.

(** Every call falls in exactly one of these cases. *)
Lemma forward_cases self features labels mask :
  (length (shape features) < 3 ∧
     forward self features labels mask = Err ShapeError) ∨
  (3 ≤ length (shape features) ∧ ¬ flattens features ∧
     forward self features labels mask = Err TorchError) ∨
  (3 ≤ length (shape features) ∧ flattens features ∧
     is_Some labels ∧ is_Some mask ∧
     forward self features labels mask = Err ArgumentConflictError) ∨
  (3 ≤ length (shape features) ∧ flattens features ∧
     (∃ l, labels = Some l ∧ mask = None ∧ length l ≠ dim features 0) ∧
     forward self features labels mask = Err ShapeError) ∨
  (3 ≤ length (shape features) ∧ flattens features ∧
     labels_mask_ok (dim features 0) labels mask ∧ dim features 1 = 0 ∧
     forward self features labels mask = Err TorchError) ∨
  (3 ≤ length (shape features) ∧ flattens features ∧
     labels_mask_ok (dim features 0) labels mask ∧ dim features 1 ≠ 0 ∧
     ¬ valid_mode (contrast_mode self) ∧
     forward self features labels mask = Err InvalidConfigurationError) ∨
  (3 ≤ length (shape features) ∧ flattens features ∧
     labels_mask_ok (dim features 0) labels mask ∧ dim features 1 ≠ 0 ∧
     valid_mode (contrast_mode self) ∧
     raises_only (λ e, e = TorchError ∨ e = ZeroDivisionError)
                 (forward self features labels mask)).
Proof.
  destruct (decide (length (shape features) < 3)) as [Hr|Hr].
  { left. split; [done|]. by apply forward_logits_Err, compute_logits_rank. }
  right. assert (3 ≤ length (shape features)) as Hr' by lia. clear Hr.
  assert (Decision (flattens features)) as [Hfl|Hfl]
    by (unfold flattens; apply _).
  2:{ left. split_and!; try done.
      by apply forward_logits_Err, compute_logits_ambiguous. }
  right.
  destruct (resolve_mask (dim features 0) labels mask) as [m0|e] eqn:Hm.
  2:{ pose proof (forward_resolve_Err self _ _ _ _ Hr' Hfl Hm) as Hf.
      apply resolve_mask_Err_inv in Hm as [(-> & ? & ?)|(-> & ?)].
      - left. by split_and!.
      - right; left. by split_and!. }
  apply resolve_mask_Ok_inv in Hm. do 2 right.
  destruct (decide (dim features 1 = 0)) as [HV|HV].
  { left. split_and!; try done. by apply forward_no_views. }
  right.
  assert (Decision (valid_mode (contrast_mode self))) as [Hmode|Hmode]
    by (unfold valid_mode; apply _).
  - right. split_and!; try done. by apply forward_known_mode.
  - left. split_and!; try done. by apply forward_unknown_mode.
Qed.
End errors.

(** ** The exceptions of the specification *)

Section error_claims.
Context {A : Type} `{Scalar A}.
Implicit Types (self : SupConLoss A) (features : tensor A).
Implicit Types (labels : option (list Z)) (mask : option (matrix A)).

Lemma flatten_rank_gt_3 features :
  3 < length (shape features) → flattens features →
  flatten features =
    Tensor [dim features 0; dim features 1;
            foldr Nat.mul 1 (drop 2 (shape features))] (data features).
Proof.
  intros Hr [Hfl|Hfl]; [lia|]. unfold flatten.
  rewrite (proj2 (Nat.ltb_lt _ _) Hr). do 3 f_equal.
  destruct (shape_cons2 features) as [rest Hs]; [lia|].
  unfold numel. rewrite Hs. cbn [foldr drop].
  replace (dim features 0 * (dim features 1 * foldr Nat.mul 1 rest))
    with (foldr Nat.mul 1 rest * (dim features 0 * dim features 1)) by lia.
  by rewrite Nat.div_mul.
Qed.

(** C5 (amended).  [forward] fails with [ShapeError] exactly when
    [features] has rank below 3, or when the reshape of line 42 succeeds
    and labels are supplied without a mask and their number differs
    from the batch size.  Features of rank above 3 whose leading sizes
    are not zero are reshaped to [[B; V; D]], [D] the product of the
    remaining sizes. *)
Theorem forward_ShapeError_iff self features labels mask :
  (forward self features labels mask = Err ShapeError ↔
     length (shape features) < 3 ∨
     (3 ≤ length (shape features) ∧ flattens features ∧
      ∃ l, labels = Some l ∧ mask = None ∧ length l ≠ dim features 0)) ∧
  (3 < length (shape features) → flattens features →
     reshape_features features =
       Ok (Tensor [dim features 0; dim features 1;
                   foldr Nat.mul 1 (drop 2 (shape features))]
                  (data features))).
Proof.
  split.
  - split.
    + intros Hf.
      destruct (forward_cases self features labels mask)
        as [(? & _)|[(_ & _ & E)|[(_ & _ & _ & _ & E)|[(? & ? & ? & _)|
             [(_ & _ & _ & _ & E)|[(_ & _ & _ & _ & _ & E)|
             (_ & _ & _ & _ & _ & E)]]]]]];
        try (by left); try (by right); try congruence.
      by destruct (E _ Hf).
    + intros [Hr|(Hr & Hfl & l & -> & -> & Hl)].
      * by apply forward_logits_Err, compute_logits_rank.
      * apply forward_resolve_Err; [done..|]. cbn.
        unfold view_col at 1. rewrite length_fmap.
        by rewrite (proj2 (Nat.eqb_neq _ _) Hl).
  - intros Hr Hfl. rewrite reshape_features_flatten by (done || lia).
    by rewrite flatten_rank_gt_3.
Qed.

(** C6 (amended).  With features that pass the rank check and the
    reshape of line 42, a call that supplies both labels and mask fails
    with [ArgumentConflictError], whatever the labels, the mask and the
    configuration are. *)
Theorem forward_conflict self features (l : list Z) (m : matrix A) :
  3 ≤ length (shape features) → flattens features →
  forward self features (Some l) (Some m) = Err ArgumentConflictError.
Proof. intros Hr Hfl. by apply forward_resolve_Err. Qed.

(** C9 (amended).  [forward] fails with [InvalidConfigurationError]
    exactly when the mode is neither 'one' nor 'all' and the call gets
    as far as line 59: the features pass the rank check and the
    reshape, labels and mask are not both given, the labels are as many
    as the samples, and there is at least one view. *)
Theorem forward_InvalidConfigurationError_iff self features labels mask :
  forward self features labels mask = Err InvalidConfigurationError ↔
  ¬ valid_mode (contrast_mode self) ∧
  3 ≤ length (shape features) ∧ flattens features ∧
  labels_mask_ok (dim features 0) labels mask ∧ dim features 1 ≠ 0.
Proof.
  split.
  - intros Hf.
    destruct (forward_cases self features labels mask)
      as [(_ & E)|[(_ & _ & E)|[(_ & _ & _ & _ & E)|[(_ & _ & _ & E)|
           [(_ & _ & _ & _ & E)|[(? & ? & ? & ? & ? & _)|
           (_ & _ & _ & _ & _ & E)]]]]]];
      try done; try congruence.
    by destruct (E _ Hf).
  - intros (Hmode & Hr & Hfl & Hlm & HV). by apply forward_unknown_mode.
Qed.

(** C10.  [__init__] stores any temperature, mode and base temperature
    and never raises.  [forward] reads the mode only after the rank
    check and the resolution of labels and mask: whatever the mode,
    features of rank below 3 fail with [ShapeError], an exception of
    the mask resolution is the exception of the call, in particular
    labels together with a mask fail with [ArgumentConflictError], and
    [InvalidConfigurationError] is raised only by calls that passed
    both. *)
Theorem mode_validated_late (t bt : A) (mode : string)
    features labels mask :
  ∃ self,
    init t mode bt = Ok self ∧
    temperature self = t ∧ contrast_mode self = mode ∧
    base_temperature self = bt ∧
    (length (shape features) < 3 →
       forward self features labels mask = Err ShapeError) ∧
    (3 ≤ length (shape features) → flattens features →
       ∀ e, resolve_mask (dim features 0) labels mask = Err e →
            forward self features labels mask = Err e) ∧
    (3 ≤ length (shape features) → flattens features →
       is_Some labels → is_Some mask →
       forward self features labels mask = Err ArgumentConflictError) ∧
    (forward self features labels mask = Err InvalidConfigurationError →
       3 ≤ length (shape features) ∧
       labels_mask_ok (dim features 0) labels mask ∧
       ¬ valid_mode mode).
Proof.
  eexists. split; [reflexivity|]. cbn. split_and!; try done.
  - intros Hr. by apply forward_logits_Err, compute_logits_rank.
  - intros Hr Hfl e He. by apply forward_resolve_Err.
  - intros Hr Hfl [l ->] [m ->]. by apply forward_resolve_Err.
  - intros Hf.
    match type of Hf with forward ?s _ _ _ = _ =>
      destruct (forward_cases s features labels mask)
        as [(_ & E)|[(_ & _ & E)|[(_ & _ & _ & _ & E)|[(_ & _ & _ & E)|
             [(_ & _ & _ & _ & E)|[(? & ? & ? & ? & ? & _)|
             (_ & _ & _ & _ & _ & E)]]]]]]
    end; try done; try congruence.
    by destruct (E _ Hf).
Qed.
End error_claims.

(** C5: labels whose number differs from the batch size, supplied
    together with a mask, do not fail with [ShapeError]. *)
Lemma forward_ShapeError_counterexample :
  let self : SupConLoss PR :=
    {| temperature := Some 1%R; contrast_mode := "all";
       base_temperature := Some 1%R |} in
  let features := Tensor [2; 1; 1] [Some 1%R; Some 2%R] in
  let labels := [7%Z] in
  length labels ≠ dim features 0 ∧
  forward self features (Some labels) (Some (eye 2))
    = Err ArgumentConflictError ∧
  forward self features (Some labels) (Some (eye 2)) ≠ Err ShapeError.
Proof. cbn zeta. split_and!; [cbn; lia|reflexivity|discriminate]. Qed.

Lemma forward_ShapeError_iff_witness :
  forward (A:=PR)
    {| temperature := Some 1%R; contrast_mode := "all";
       base_temperature := Some 1%R |}
    (Tensor [2; 1; 1] [Some 1%R; Some 2%R]) (Some [7%Z]) None
  = Err ShapeError.
Proof.
  apply forward_ShapeError_iff. right. split_and!.
  - cbn. lia.
  - left. cbn. lia.
  - exists [7%Z]. split_and!; [reflexivity|reflexivity|cbn; lia].
Defined.

(** C6: on features of rank 2 the rank check fires before the conflict
    check. *)
Lemma forward_conflict_counterexample :
  let self : SupConLoss PR :=
    {| temperature := Some 1%R; contrast_mode := "all";
       base_temperature := Some 1%R |} in
  let features := Tensor [2; 3] (replicate 6 (Some 1%R)) in
  forward self features (Some [0%Z; 1%Z]) (Some (eye 2)) = Err ShapeError ∧
  forward self features (Some [0%Z; 1%Z]) (Some (eye 2))
    ≠ Err ArgumentConflictError.
Proof. cbn zeta. split; [reflexivity|discriminate]. Qed.

Lemma forward_conflict_witness :
  forward (A:=PR)
    {| temperature := Some 1%R; contrast_mode := "all";
       base_temperature := Some 1%R |}
    (Tensor [2; 1; 1] [Some 1%R; Some 2%R]) (Some [0%Z; 1%Z]) (Some (eye 2))
  = Err ArgumentConflictError.
Proof. apply forward_conflict; [cbn; lia|left; cbn; lia]. Defined.

(** C9: an unknown mode together with labels and a mask fails with
    [ArgumentConflictError]. *)
Lemma forward_InvalidConfigurationError_counterexample :
  let self : SupConLoss PR :=
    {| temperature := Some 1%R; contrast_mode := "two";
       base_temperature := Some 1%R |} in
  let features := Tensor [2; 1; 1] [Some 1%R; Some 2%R] in
  ¬ valid_mode (contrast_mode self) ∧
  forward self features (Some [0%Z; 1%Z]) (Some (eye 2))
    = Err ArgumentConflictError ∧
  forward self features (Some [0%Z; 1%Z]) (Some (eye 2))
    ≠ Err InvalidConfigurationError.
Proof.
  cbn zeta. split_and!; [|reflexivity|discriminate].
  by intros [?|?].
Qed.

Lemma forward_InvalidConfigurationError_iff_witness :
  forward (A:=PR)
    {| temperature := Some 1%R; contrast_mode := "two";
       base_temperature := Some 1%R |}
    (Tensor [2; 1; 1] [Some 1%R; Some 2%R]) (Some [0%Z; 1%Z]) None
  = Err InvalidConfigurationError.
Proof.
  apply forward_InvalidConfigurationError_iff. split_and!.
  - by intros [?|?].
  - cbn. lia.
  - left. cbn. lia.
  - reflexivity.
  - cbn. lia.
Defined.

Lemma mode_validated_late_witness :
  ∃ self : SupConLoss PR,
    init (Some (-1)%R) "two" (Some 0%R) = Ok self ∧
    forward self (Tensor [2; 1; 1] [Some 1%R; Some 2%R])
            (Some [0%Z; 1%Z]) (Some (eye 2)) = Err ArgumentConflictError.
Proof.
  destruct (mode_validated_late (Some (-1)%R) (Some 0%R) "two"
              (Tensor [2; 1; 1] [Some 1%R; Some 2%R])
              (Some [0%Z; 1%Z]) (Some (eye 2)))
    as (self & Hinit & _ & _ & _ & _ & _ & Hconflict & _).
  exists self. split; [exact Hinit|].
  apply Hconflict; [cbn; lia|left; cbn; lia|by eexists|by eexists].
Defined.

(** ** Lines 45-55: the mask before tiling *)

Section pre_tile_mask.
Context {A : Type} `{Scalar A}.

Lemma entry_eye n i j :
  i < n → j < n →
  entry (eye (A:=A) n) i j = Some (if i =? j then fone else fzero).
Proof.
  intros Hi Hj. unfold entry, eye.
  rewrite list_lookup_fmap, lookup_seq_lt by done. cbn.
  by rewrite list_lookup_fmap, lookup_seq_lt.
Qed.

Lemma entry_same_class (l : list Z) i j :
  entry (same_class (A:=A) l) i j =
  li ← l !! i; lj ← l !! j; Some (if (li =? lj)%Z then fone else fzero).
Proof.
  unfold entry, same_class. rewrite list_lookup_fmap.
  destruct (l !! i) as [li|]; [|done]. cbn.
  rewrite list_lookup_fmap. by destruct (l !! j).
Qed.

(** C8.  Without labels and without a mask, the mask that [forward]
    builds before tiling is the identity matrix of the batch size: a
    [B] by [B] matrix whose entry [(i, j)] is 1.0 exactly when [i = j]
    and 0.0 otherwise. *)
Theorem default_mask_identity (b : nat) :
  resolve_mask (A:=A) b None None = Ok (eye b) ∧
  has_shape (eye (A:=A) b) b b ∧
  (∀ i j, i < b → j < b →
     entry (eye (A:=A) b) i j = Some (if i =? j then fone else fzero)) ∧
  (∀ i j, i < b → j < b → (entry (eye (A:=A) b) i j = Some fone ↔ i = j)) ∧
  (∀ self features fr,
     compute_logits self features None None = Ok fr →
     dim features 0 = b → mask_pre fr = eye b).
Proof.
  split_and!.
  - done.
  - apply has_shape_eye.
  - apply entry_eye.
  - intros i j Hi Hj. rewrite entry_eye by done.
    destruct (Nat.eqb_spec i j) as [->|Hne]; [done|].
    split; [|done]. intros [= E]. by destruct fone_neq_fzero.
  - intros self features fr Hfr <-.
    apply compute_logits_inv in Hfr as (_ & _ & _ & _ & _ & Hm & _).
    cbn in Hm. by injection Hm.
Qed.

(** C3.  With labels and no mask, one label per sample, the mask that
    [forward] builds before tiling has entry [(i, j)] equal to 1.0 if
    [labels[i] = labels[j]] and to 0.0 otherwise; it is symmetric. *)
Theorem label_mask_same_class (b : nat) (l : list Z) :
  length l = b →
  ∃ m : matrix A,
    resolve_mask b (Some l) None = Ok m ∧
    has_shape m b b ∧
    (∀ i j li lj, l !! i = Some li → l !! j = Some lj →
       entry m i j = Some (if (li =? lj)%Z then fone else fzero)) ∧
    (∀ i j li lj, l !! i = Some li → l !! j = Some lj →
       (entry m i j = Some fone ↔ li = lj)) ∧
    (∀ i j, entry m i j = entry m j i) ∧
    (∀ self features fr,
       compute_logits self features (Some l) None = Ok fr → mask_pre fr = m).
Proof.
  intros Hl. exists (same_class l). split_and!.
  - cbn. unfold view_col at 1. rewrite length_fmap, Hl, Nat.eqb_refl. cbn.
    apply eq_float_labels.
  - rewrite <- Hl. apply has_shape_same_class.
  - intros i j li lj Hi Hj. by rewrite entry_same_class, Hi, Hj.
  - intros i j li lj Hi Hj. rewrite entry_same_class, Hi, Hj. cbn.
    destruct (Z.eqb_spec li lj) as [->|Hne]; [done|].
    split; [|done]. intros [= E]. by destruct fone_neq_fzero.
  - intros i j. rewrite !entry_same_class.
    destruct (l !! i) as [li|], (l !! j) as [lj|]; cbn; try done.
    by rewrite Z.eqb_sym.
  - intros self features fr Hfr.
    apply compute_logits_inv in Hfr as (_ & _ & _ & _ & _ & Hm & _).
    pose proof (resolve_mask_Ok_inv _ _ _ _ Hm) as Hb. cbn in Hb, Hm.
    unfold view_col at 1 in Hm. rewrite length_fmap, Hb, Nat.eqb_refl in Hm.
    cbn in Hm. rewrite eq_float_labels in Hm. by injection Hm.
Qed.
End pre_tile_mask.

Lemma default_mask_identity_witness :
  entry (eye (A:=PR) 3) 0 0 = Some (Some 1%R) ∧
  entry (eye (A:=PR) 3) 0 2 = Some (Some 0%R).
Proof.
  destruct (default_mask_identity (A:=PR) 3) as (_ & _ & He & _).
  split; [exact (He 0 0 ltac:(lia) ltac:(lia))|exact (He 0 2 ltac:(lia) ltac:(lia))].
Defined.

Lemma label_mask_same_class_witness :
  ∃ m : matrix PR,
    resolve_mask 3 (Some [4%Z; 9%Z; 4%Z]) None = Ok m ∧
    entry m 0 2 = Some (Some 1%R) ∧ entry m 2 1 = Some (Some 0%R).
Proof.
  destruct (label_mask_same_class (A:=PR) 3 [4%Z; 9%Z; 4%Z] eq_refl)
    as (m & Hm & _ & He & _).
  exists m. split_and!; [exact Hm| |].
  - exact (He 0 2 4%Z 4%Z eq_refl eq_refl).
  - exact (He 2 1 4%Z 9%Z eq_refl eq_refl).
Defined.

(** ** Lines 57-66: the two modes with a single view *)

Section single_view.
Context {A : Type} `{Scalar A}.

Lemma concat_unbind_1_single (f : tensor A) :
  dim f 1 = 1 → concat (unbind_1 f) = select_1 f 0.
Proof. intros HV. unfold unbind_1. rewrite HV. cbn. apply app_nil_r. Qed.

(** C7.  With a single view, modes 'one' and 'all' compute the same
    frame: one anchor per sample, the anchors being the slice of the
    single view, which is also the whole contrast set.  Hence [forward]
    returns the same result (the same loss, or the same exception) for
    the two modes. *)
Theorem single_view_modes_agree (t bt : A) (features : tensor A)
    (labels : option (list Z)) (mask : option (matrix A)) :
  dim features 1 = 1 →
  let one := {| temperature := t; contrast_mode := "one";
                base_temperature := bt |} in
  let all := {| temperature := t; contrast_mode := "all";
                base_temperature := bt |} in
  compute_logits one features labels mask
    = compute_logits all features labels mask ∧
  (∀ fr, compute_logits all features labels mask = Ok fr →
     anchor_count fr = 1 ∧
     anchor_feature fr = select_1 (flatten features) 0 ∧
     contrast_feature fr = select_1 (flatten features) 0) ∧
  forward one features labels mask = forward all features labels mask.
Proof.
  intros HV one all.
  assert (Hlogits : compute_logits one features labels mask
                    = compute_logits all features labels mask).
  { destruct (decide (length (shape features) < 3)) as [Hr|Hr].
    { by rewrite !compute_logits_rank. }
    assert (Decision (flattens features)) as [Hfl|Hfl]
      by (unfold flattens; apply _).
    2:{ by rewrite !compute_logits_ambiguous by (done || lia). }
    rewrite !compute_logits_flat by (done || lia). cbn.
    rewrite concat_unbind_1_single, HV; [done|].
    by rewrite flatten_dim_1 by lia. }
  split_and!; [done| |].
  - intros fr Hfr.
    assert (3 ≤ length (shape features) ∧ flattens features) as [Hr Hfl].
    { by apply compute_logits_inv in Hfr as (? & ? & _). }
    rewrite compute_logits_flat in Hfr by done. cbn in Hfr.
    destruct (resolve_mask _ _ _) as [m|]; [|done]. cbn in Hfr.
    rewrite HV in Hfr. cbn in Hfr. injection Hfr as <-. cbn.
    rewrite concat_unbind_1_single; [done|].
    by rewrite flatten_dim_1.
  - unfold forward, forward_locals. rewrite Hlogits.
    by destruct (compute_logits all features labels mask).
Qed.
End single_view.

Lemma single_view_modes_agree_witness :
  forward (A:=PR)
    {| temperature := Some 1%R; contrast_mode := "one";
       base_temperature := Some 1%R |}
    (Tensor [2; 1; 1] [Some 1%R; Some 2%R]) (Some [5%Z; 5%Z]) None
  = forward
    {| temperature := Some 1%R; contrast_mode := "all";
       base_temperature := Some 1%R |}
    (Tensor [2; 1; 1] [Some 1%R; Some 2%R]) (Some [5%Z; 5%Z]) None.
Proof.
  exact (proj2 (proj2 (single_view_modes_agree (Some 1%R) (Some 1%R)
    (Tensor [2; 1; 1] [Some 1%R; Some 2%R]) (Some [5%Z; 5%Z]) None eq_refl))).
Defined.

(** ** Lines 77-84: the self-contrast mask *)

Section scatter.
Context {X : Type}.

Lemma scatter_row_single (row : list X) j v :
  j < length row → scatter_row row [j] v = Ok (<[j := v]> row).
Proof.
  intros Hj. unfold scatter_row. cbn [foldl mbind result_bind].
  by rewrite (proj2 (Nat.ltb_lt _ _) Hj).
Qed.

(** Scattering along a column of consecutive indices writes the diagonal
    that starts at column [k]. *)
Lemma scatter_1_arange (src : matrix X) n k c v :
  length src = n → Forall (λ row, length row = c) src → k + n ≤ c →
  scatter_1 src (view_col (seq k n)) v
  = Ok (zip_with (λ i row, <[i := v]> row) (seq k n) src).
Proof.
  revert src k. induction n as [|n IH]; intros src k Hn Hc Hk.
  - by destruct src.
  - destruct src as [|row src]; [done|].
    apply Forall_cons in Hc as [Hrow Hc].
    cbn [seq view_col fmap list_fmap scatter_1].
    rewrite scatter_row_single by lia. cbn [mbind result_bind].
    change ((λ x, [x]) <$> seq (S k) n) with (view_col (seq (S k) n)).
    rewrite (IH src (S k)); [done|by injection Hn|done|lia].
Qed.
End scatter.

Section logits_mask.
Context {A : Type} `{Scalar A}.

Lemma build_logits_mask_diag (fr : logits_frame A) (m : matrix A) c :
  has_shape m (batch_size fr * anchor_count fr) c →
  batch_size fr * anchor_count fr ≤ c →
  ∃ lm, build_logits_mask fr m = Ok lm ∧
        has_shape lm (batch_size fr * anchor_count fr) c ∧
        ∀ i j, i < batch_size fr * anchor_count fr → j < c →
               entry lm i j = Some (if i =? j then fzero else fone).
Proof.
  set (n := batch_size fr * anchor_count fr). intros Hm Hn.
  apply has_shape_ones_like in Hm. destruct Hm as [Hr Hc].
  unfold build_logits_mask, arange. fold n.
  rewrite (scatter_1_arange _ n 0 c) by (done || lia).
  eexists. split; [done|]. split_and!.
  - split.
    + by rewrite length_zip_with, length_seq, Hr, Nat.min_id.
    + apply Forall_forall. intros row [i Hrow]%list_elem_of_lookup.
      apply lookup_zip_with_Some in Hrow as (k & r & -> & _ & Hr').
      rewrite length_insert.
      by apply (proj1 (Forall_lookup _ _) Hc _ _ Hr').
  - intros i j Hi Hj. unfold entry.
    destruct (lookup_lt_is_Some_2 (ones_like m) i) as [row Hrow]; [lia|].
    rewrite lookup_zip_with, lookup_seq_lt, Hrow by done. cbn.
    pose proof (proj1 (Forall_lookup _ _) Hc _ _ Hrow) as Hlen. cbn in Hlen.
    assert (row !! j = Some fone) as Hone.
    { unfold ones_like in Hrow. rewrite list_lookup_fmap in Hrow.
      destruct (m !! i) as [r|]; [|done]. injection Hrow as <-.
      rewrite length_fmap in Hlen. rewrite list_lookup_fmap.
      destruct (lookup_lt_is_Some_2 r j) as [x ->]; [lia|done]. }
    destruct (Nat.eqb_spec i j) as [->|Hne].
    + by rewrite list_lookup_insert_eq by lia.
    + by rewrite list_lookup_insert_ne.
Qed.

Lemma compute_loss_logits_mask self (fr : logits_frame A) logits loc :
  compute_loss self fr logits = Ok loc →
  build_logits_mask fr (tile_mask fr) = Ok (l_logits_mask loc).
Proof.
  unfold compute_loss.
  destruct (build_logits_mask fr (tile_mask fr)) as [lm|]; [|done].
  cbn [mbind result_bind].
  repeat (match goal with
          | |- (?m ≫= _) = Ok _ → _ => destruct m; [|done]
          end; cbn [mbind result_bind]).
  by intros [= <-].
Qed.
End logits_mask.

Section self_exclusion.
Context {A : Type} `{Scalar A}.

(** C1.  For a batch of [B >= 1] samples with [V >= 1] views and mode
    'one' or 'all', the [logits_mask] that [forward] builds has shape
    [[anchor_count * B; V * B]]; its entry [(r, c)] is 0 when [c = r] and
    1 otherwise.  So every row has exactly one zero, at the column of the
    row's own index, there are [anchor_count * B] zeros in all, and the
    pair of a sample in one view with the same sample in another view
    keeps its 1. *)
Theorem logits_mask_self_exclusion (self : SupConLoss A) (features : tensor A)
    (labels : option (list Z)) (mask : option (matrix A)) (B V : nat) :
  well_formed features labels mask B V → valid_mode (contrast_mode self) →
  ∃ (fr : logits_frame A) (lm : matrix A),
    compute_logits self features labels mask = Ok fr ∧
    build_logits_mask fr (tile_mask fr) = Ok lm ∧
    (∀ loc, forward_locals self features labels mask = Ok loc →
            l_logits_mask loc = lm) ∧
    batch_size fr = B ∧ contrast_count fr = V ∧
    anchor_count fr =
      (if bool_decide (contrast_mode self = "one") then 1 else V) ∧
    has_shape lm (anchor_count fr * B) (V * B) ∧
    (∀ r c, r < anchor_count fr * B → c < V * B →
       entry lm r c = Some (if r =? c then fzero else fone)) ∧
    (∀ r c, r < anchor_count fr * B → c < V * B →
       (entry lm r c = Some fzero ↔ c = r)) ∧
    (∃ zeros : list (nat * nat),
       NoDup zeros ∧ length zeros = anchor_count fr * B ∧
       ∀ r c, (r < anchor_count fr * B ∧ c < V * B ∧
               entry lm r c = Some fzero) ↔ (r, c) ∈ zeros) ∧
    (∀ a v i, a < anchor_count fr → v < V → i < B → v ≠ a →
       entry lm (a * B + i) (v * B + i) = Some fone).
Proof.
  intros Hwf Hmode.
  destruct (compute_logits_ok self features labels mask B V Hwf Hmode)
    as (fr & Hfr & Hpre).
  destruct Hwf as (Hr & HB & HV & HB1 & HV1 & Hlm).
  pose proof (compute_logits_inv _ _ _ _ _ Hfr)
    as (_ & _ & Hbs & Hcc & _ & _ & _ & Hac & _).
  rewrite HB in Hbs. rewrite HV in Hcc, Hac.
  assert (anchor_count fr ≤ V) as Hle by (rewrite Hac; case_bool_decide; lia).
  assert (Hn : batch_size fr * anchor_count fr = anchor_count fr * B)
    by (rewrite Hbs; lia).
  assert (Htile : has_shape (tile_mask fr)
                    (batch_size fr * anchor_count fr) (V * B)).
  { rewrite Hn. unfold tile_mask. rewrite Hcc. by apply has_shape_repeat_2. }
  destruct (build_logits_mask_diag fr (tile_mask fr) (V * B) Htile)
    as (lm & Hlm' & Hsh & Hentry).
  { rewrite Hn. by apply Nat.mul_le_mono_r. }
  rewrite Hn in Hsh, Hentry.
  assert (Hzero : ∀ r c, r < anchor_count fr * B → c < V * B →
                    (entry lm r c = Some fzero ↔ c = r)).
  { intros r c Hr' Hc'. rewrite Hentry by done.
    destruct (Nat.eqb_spec r c) as [->|Hne]; [done|].
    split; [|by intros ->]. intros [= E]. by destruct fone_neq_fzero. }
  exists fr, lm. split_and!; try done.
  - intros loc Hloc. unfold forward_locals in Hloc. rewrite Hfr in Hloc.
    cbn [mbind result_bind] in Hloc.
    destruct (stabilize _) as [logits|]; [|done].
    cbn [mbind result_bind] in Hloc.
    apply compute_loss_logits_mask in Hloc. rewrite Hlm' in Hloc.
    by injection Hloc.
  - exists ((λ r, (r, r)) <$> seq 0 (anchor_count fr * B)). split_and!.
    + apply NoDup_fmap_2; [by intros ?? [= ?]|apply NoDup_seq].
    + by rewrite length_fmap, length_seq.
    + intros r c. rewrite list_elem_of_fmap. split.
      * intros (Hr' & Hc' & He). apply Hzero in He as ->; [|done..].
        exists r. split; [done|]. apply elem_of_seq. lia.
      * intros (k & [= -> ->] & Hk%elem_of_seq).
        assert (k < V * B).
        { eapply Nat.lt_le_trans; [|by apply Nat.mul_le_mono_r]. lia. }
        split_and!; [lia|done|]. apply Hzero; [lia|done..].
  - intros a v i Ha Hv Hi Hne.
    rewrite Hentry.
    + destruct (Nat.eqb_spec (a * B + i) (v * B + i)) as [E|_]; [|done].
      apply Nat.add_cancel_r, Nat.mul_cancel_r in E; [by subst|lia].
    + apply Nat.lt_le_trans with (S a * B); [lia|].
      by apply Nat.mul_le_mono_r.
    + apply Nat.lt_le_trans with (S v * B); [lia|].
      by apply Nat.mul_le_mono_r.
Qed.
End self_exclusion.


Lemma logits_mask_self_exclusion_witness :
  ∃ (fr : logits_frame PR) (lm : matrix PR),
    compute_logits
      {| temperature := Some 1%R; contrast_mode := "one";
         base_temperature := Some 1%R |}
      (Tensor [2; 2; 1] [Some 1%R; Some 2%R; Some 3%R; Some 4%R])
      None None = Ok fr ∧
    build_logits_mask fr (tile_mask fr) = Ok lm ∧
    has_shape lm (anchor_count fr * 2) (2 * 2).
Proof.
  destruct (logits_mask_self_exclusion (A:=PR)
              {| temperature := Some 1%R; contrast_mode := "one";
                 base_temperature := Some 1%R |}
              (Tensor [2; 2; 1] [Some 1%R; Some 2%R; Some 3%R; Some 4%R])
              None None 2 2)
    as (fr & lm & Hfr & Hlm & _ & _ & _ & _ & Hsh & _).
  - unfold well_formed. cbn. split_and!; (lia || done).
  - by left.
  - by exists fr, lm.
Defined.

(** ** Element-wise operations on tensors of one shape *)

Section same_shape.
Context {X Y Z : Type}.

Lemma map2_1_same (f : X → Y → Z) a b :
  length a = length b → map2_1 f a b = Ok (zip_with f a b).
Proof. intros Hl. unfold map2_1. by apply broadcast_zip. Qed.

Lemma map2_2_same (f : X → Y → Z) (a : matrix X) (b : matrix Y) r c :
  has_shape a r c → has_shape b r c →
  map2_2 f a b = Ok (zip_with (zip_with f) a b).
Proof.
  intros [Har Hac] [Hbr Hbc]. unfold map2_2.
  apply broadcast_zip; [congruence|].
  intros i x y Hx Hy. apply map2_1_same.
  rewrite (proj1 (Forall_lookup _ _) Hac _ _ Hx).
  by rewrite (proj1 (Forall_lookup _ _) Hbc _ _ Hy).
Qed.

Lemma has_shape_zip_with (f : X → Y → Z) (a : matrix X) (b : matrix Y) r c :
  has_shape a r c → has_shape b r c →
  has_shape (zip_with (zip_with f) a b) r c.
Proof.
  intros [Har Hac] [Hbr Hbc]. split.
  - rewrite length_zip_with. lia.
  - apply Forall_forall. intros row [i Hrow]%list_elem_of_lookup.
    apply lookup_zip_with_Some in Hrow as (x & y & -> & Hx & Hy).
    rewrite length_zip_with.
    rewrite (proj1 (Forall_lookup _ _) Hac _ _ Hx).
    rewrite (proj1 (Forall_lookup _ _) Hbc _ _ Hy). lia.
Qed.

(** A tensor and a column of as many rows ([keepdim=True]). *)
Lemma map2_2_col (f : X → Y → Z) (a : matrix X) (cs : list Y) :
  length a = length cs →
  map2_2 f a (view_col cs)
  = Ok (zip_with (λ row c, (λ x, f x c) <$> row) a cs).
Proof.
  intros Hl. unfold map2_2, view_col.
  rewrite (broadcast_zip _
             (λ row col, match col with
                         | c :: _ => (λ x, f x c) <$> row
                         | [] => []
                         end)).
  - by rewrite zip_with_fmap_r.
  - by rewrite length_fmap.
  - intros i row col _ Hcol. rewrite list_lookup_fmap in Hcol.
    destruct (cs !! i) as [c|]; [|done]. injection Hcol as <-.
    unfold map2_1. by apply broadcast_r.
Qed.
End same_shape.

(** ** Lines 73-96 on tensors of the expected shapes *)

Section pipeline.
Context {A : Type} `{Scalar A}.

Lemma zip_with_fmap_zip_with {X Y Z W U V}
    (f : X → W → V) (g : U → W) (h : Z → Y → U) (k : X → Z)
    (a : list X) (b : list Y) :
  length a = length b →
  zip_with f a (g <$> zip_with h (k <$> a) b)
  = zip_with (λ x y, f x (g (h (k x) y))) a b.
Proof.
  revert b. induction a as [|x a IH]; intros [|y b] Hl; try done.
  cbn. f_equal. apply IH. by injection Hl.
Qed.

Lemma stabilize_same (adc : matrix A) N M :
  has_shape adc N M → 1 ≤ N → 1 ≤ M →
  stabilize adc = Ok (shift_row <$> adc).
Proof.
  intros [HN HM] HN1 HM1. unfold stabilize.
  assert (max_1_keepdim adc = Ok (view_col (row_max <$> adc))) as ->.
  { unfold max_1_keepdim. destruct adc as [|r adc]; [cbn in HN; lia|].
    unfold view_col. rewrite <- list_fmap_compose.
    apply mapM_pure. intros row Hrow.
    pose proof (proj1 (Forall_forall _ _) HM _ Hrow) as Hlen. cbn in Hlen.
    destruct row; [cbn in Hlen; lia|done]. }
  cbn [mbind result_bind]. unfold sub_2.
  rewrite map2_2_col by by rewrite length_fmap.
  by rewrite zip_with_fmap_r, zip_with_diag.
Qed.

Lemma has_shape_shift (adc : matrix A) N M :
  has_shape adc N M → has_shape (shift_row <$> adc) N M.
Proof.
  intros [HN HM]. split; [by rewrite length_fmap|].
  apply Forall_fmap. eapply Forall_impl; [exact HM|].
  intros row Hrow. cbn. unfold shift_row. by rewrite length_fmap.
Qed.

Lemma compute_log_prob_same (logits lm : matrix A) N M :
  has_shape logits N M → has_shape lm N M →
  compute_log_prob logits lm = Ok (zip_with row_log_prob logits lm).
Proof.
  intros Hl Hm. unfold compute_log_prob, mul_2, sub_2.
  assert (has_shape (exp_2 logits) N M) as He.
  { destruct Hl as [HN HM]. split; [by unfold exp_2; rewrite length_fmap|].
    apply Forall_fmap. eapply Forall_impl; [exact HM|].
    intros row Hrow. cbn. by rewrite length_fmap. }
  rewrite (map2_2_same _ _ _ N M) by done. cbn [mbind result_bind].
  assert (log_2 (sum_1_keepdim (zip_with (zip_with fmul) (exp_2 logits) lm))
          = view_col ((λ row, flog (fsum row))
                        <$> zip_with (zip_with fmul) (exp_2 logits) lm)) as ->.
  { unfold log_2, sum_1_keepdim, view_col. by rewrite <- !list_fmap_compose. }
  rewrite map2_2_col.
  - f_equal. unfold exp_2. apply zip_with_fmap_zip_with.
    destruct Hl, Hm. congruence.
  - rewrite length_fmap, length_zip_with.
    destruct He, Hl, Hm. lia.
Qed.

Lemma has_shape_log_prob (logits lm : matrix A) N M :
  has_shape logits N M → has_shape lm N M →
  has_shape (zip_with row_log_prob logits lm) N M.
Proof.
  intros [HN HM] [HN' HM']. split; [rewrite length_zip_with; lia|].
  apply Forall_forall. intros row [i Hrow]%list_elem_of_lookup.
  apply lookup_zip_with_Some in Hrow as (x & y & -> & Hx & Hy).
  unfold row_log_prob. rewrite length_fmap.
  by apply (proj1 (Forall_lookup _ _) HM _ _ Hx).
Qed.

Lemma concat_view_rows {X} (l : list X) r c k :
  concat ((λ i, take c (drop (i * c) l)) <$> seq k r)
  = take (r * c) (drop (k * c) l).
Proof.
  revert k. induction r as [|r IH]; intros k; [done|].
  cbn [seq fmap list_fmap concat]. rewrite IH.
  replace (S k * c) with (k * c + c) by lia.
  rewrite <- drop_drop, take_take_drop. done.
Qed.

Lemma view_2_concat {X} (l : list X) r c :
  length l = r * c → ∃ m, view_2 l r c = Ok m ∧ concat m = l.
Proof.
  intros Hl. unfold view_2. rewrite (proj2 (Nat.eqb_eq _ _) Hl).
  eexists. split; [done|].
  rewrite concat_view_rows. cbn. rewrite drop_0. apply take_ge. lia.
Qed.

(** With a [B] by [B] mask before tiling, logits of the shape of the
    tiled mask and a non-zero base temperature, lines 77-96 run to the
    end, and the locals are these. *)
Lemma compute_loss_same self (fr : logits_frame A) (logits : matrix A) B V :
  batch_size fr = B → contrast_count fr = V →
  anchor_count fr ≤ V → has_shape (mask_pre fr) B B →
  has_shape logits (anchor_count fr * B) (V * B) →
  is_zero (base_temperature self) = false →
  ∃ lm,
    build_logits_mask fr (tile_mask fr) = Ok lm ∧
    has_shape lm (anchor_count fr * B) (V * B) ∧
    let mask := zip_with (zip_with fmul) (tile_mask fr) lm in
    let log_prob := zip_with row_log_prob logits lm in
    let mean_log_prob_pos :=
      zip_with fdiv (fsum <$> zip_with (zip_with fmul) mask log_prob)
                    (fsum <$> mask) in
    let loss :=
      fmul (fneg (fdiv (temperature self) (base_temperature self)))
        <$> mean_log_prob_pos in
    has_shape mask (anchor_count fr * B) (V * B) ∧
    length mean_log_prob_pos = anchor_count fr * B ∧
    compute_loss self fr logits
    = Ok (Locals lm mask log_prob mean_log_prob_pos
            (fdiv (fsum loss) (of_nat (length loss)))).
Proof.
  intros Hbs Hcc Hle Hpre Hlogits Hbt.
  assert (Hn : batch_size fr * anchor_count fr = anchor_count fr * B)
    by (rewrite Hbs; lia).
  assert (Htile : has_shape (tile_mask fr) (anchor_count fr * B) (V * B)).
  { unfold tile_mask. rewrite Hcc. by apply has_shape_repeat_2. }
  destruct (build_logits_mask_diag fr (tile_mask fr) (V * B))
    as (lm & Hlm & Hsh & _).
  { by rewrite Hn. }
  { rewrite Hn. by apply Nat.mul_le_mono_r. }
  rewrite Hn in Hsh. exists lm. split_and!; try done.
  intros mask log_prob mlpp loss.
  assert (Hmask : has_shape mask (anchor_count fr * B) (V * B))
    by by apply has_shape_zip_with.
  assert (Hlp : has_shape log_prob (anchor_count fr * B) (V * B))
    by by apply has_shape_log_prob.
  assert (Hmlpp : length mlpp = anchor_count fr * B).
  { unfold mlpp. rewrite length_zip_with, !length_fmap, length_zip_with.
    destruct Hmask, Hlp. lia. }
  split_and!; try done.
  unfold compute_loss. rewrite Hlm. cbn [mbind result_bind]. unfold mul_2.
  rewrite (map2_2_same _ _ _ _ _ Htile Hsh). cbn [mbind result_bind].
  fold mask.
  rewrite (compute_log_prob_same _ _ _ _ Hlogits Hsh).
  cbn [mbind result_bind]. fold log_prob.
  rewrite (map2_2_same _ _ _ _ _ Hmask Hlp). cbn [mbind result_bind].
  unfold div_1, sum_1. rewrite map2_1_same.
  2:{ rewrite !length_fmap, length_zip_with. destruct Hmask, Hlp. lia. }
  cbn [mbind result_bind]. fold mlpp.
  unfold py_div. rewrite Hbt. cbn [mbind result_bind]. fold loss.
  destruct (view_2_concat loss (anchor_count fr) (batch_size fr))
    as (rows & -> & Hrows).
  { unfold loss. rewrite length_fmap, Hmlpp, Hbs. done. }
  cbn [mbind result_bind]. unfold mean. by rewrite Hrows.
Qed.
End pipeline.

Section forward_run.
Context {A : Type} `{Scalar A}.

(** A well-formed call with a known mode and a non-zero base temperature
    returns, with these locals. *)
Lemma forward_locals_same (self : SupConLoss A) (features : tensor A)
    (labels : option (list Z)) (mask : option (matrix A)) (B V : nat) :
  well_formed features labels mask B V → valid_mode (contrast_mode self) →
  is_zero (base_temperature self) = false →
  ∃ fr lm,
    compute_logits self features labels mask = Ok fr ∧
    has_shape lm (anchor_count fr * B) (V * B) ∧
    1 ≤ anchor_count fr ∧
    let logits : matrix A := shift_row <$> anchor_dot_contrast fr in
    let positives := zip_with (zip_with fmul) (tile_mask fr) lm in
    let log_prob := zip_with row_log_prob logits lm in
    let mean_log_prob_pos :=
      zip_with fdiv (fsum <$> zip_with (zip_with fmul) positives log_prob)
                    (fsum <$> positives) in
    let loss :=
      fmul (fneg (fdiv (temperature self) (base_temperature self)))
        <$> mean_log_prob_pos in
    has_shape positives (anchor_count fr * B) (V * B) ∧
    has_shape log_prob (anchor_count fr * B) (V * B) ∧
    length mean_log_prob_pos = anchor_count fr * B ∧
    forward_locals self features labels mask
    = Ok (Locals lm positives log_prob mean_log_prob_pos
            (fdiv (fsum loss) (of_nat (length loss)))).
Proof.
  intros Hwf Hmode Hbt.
  destruct (compute_logits_ok self features labels mask B V Hwf Hmode)
    as (fr & Hfr & Hpre).
  destruct Hwf as (Hr & HB & HV & HB1 & HV1 & Hlm).
  pose proof (compute_logits_inv _ _ _ _ _ Hfr)
    as (_ & _ & Hbs & Hcc & _ & _ & _ & Hac & Hadc).
  rewrite HB in Hbs, Hadc. rewrite HV in Hcc, Hac, Hadc.
  assert (1 ≤ anchor_count fr ≤ V) as [Hac1 Hle]
    by (rewrite Hac; case_bool_decide; lia).
  assert (1 ≤ anchor_count fr * B) as HN by nia.
  assert (1 ≤ V * B) as HM by nia.
  pose proof (has_shape_shift _ _ _ Hadc) as Hlogits.
  destruct (compute_loss_same self fr (shift_row <$> anchor_dot_contrast fr)
              B V Hbs Hcc Hle Hpre Hlogits Hbt)
    as (lm & _ & Hsh & Hloss).
  cbn zeta in Hloss. destruct Hloss as (Hmask & Hmlpp & Hloss).
  exists fr, lm. split_and!; try done.
  intros logits mask' log_prob mlpp loss. split_and!; try done.
  - by apply has_shape_log_prob.
  - unfold forward_locals. rewrite Hfr. cbn [mbind result_bind].
    rewrite (stabilize_same _ _ _ Hadc HN HM). cbn [mbind result_bind].
    exact Hloss.
Qed.
End forward_run.

(** ** Exact arithmetic *)

Section exact.
Implicit Types (x y : PR) (l : list PR).
Open Scope R_scope.

Lemma pr_fsum_cons x l : fsum (x :: l) = fadd x (fsum l).
Proof. done. Qed.

Lemma pr_fsum_None l i : l !! i = Some None → fsum l = None.
Proof.
  revert i. induction l as [|x l IH]; intros [|i] Hi; try done.
  - injection Hi as ->. done.
  - cbn in Hi. rewrite pr_fsum_cons, (IH _ Hi). by destruct x.
Qed.

Lemma pr_fsum_nonneg l :
  Forall (λ x, ∃ b : R, x = Some b ∧ 0 <= b) l →
  ∃ d : R, fsum l = Some d ∧ 0 <= d.
Proof.
  induction 1 as [|x l (b & -> & Hb) _ (d & IH & Hd)].
  - exists 0. split; [done|lra].
  - exists (b + d). rewrite pr_fsum_cons, IH. split; [done|lra].
Qed.

Lemma pr_fsum_positive l :
  has_positive l → ∃ d : R, fsum l = Some d ∧ 0 < d.
Proof.
  intros [Hall Hex]. induction Hall as [|x l (b & -> & Hb) Hall IH].
  - by apply Exists_nil in Hex.
  - destruct (pr_fsum_nonneg l Hall) as (d & Hd & Hd0).
    rewrite pr_fsum_cons, Hd. exists (b + d). split; [done|].
    apply Exists_cons in Hex as [(b' & [= <-] & Hb')|Hex]; [lra|].
    destruct (IH Hex) as (d' & Hd' & Hd'0).
    rewrite Hd in Hd'. injection Hd' as <-. lra.
Qed.

Lemma pr_div_zero x : fdiv x (Some 0) = None.
Proof.
  destruct x as [a|]; [|done]. cbn. by destruct (Req_dec_T 0 0).
Qed.

Lemma pr_div_nonzero (n d : R) : d ≠ 0 → fdiv (Some n) (Some d) = Some (n / d).
Proof. intros Hd. cbn. by destruct (Req_dec_T d 0). Qed.
End exact.

(** ** Lines 73-74: the shift by the row maximum *)

Section shift.
Implicit Types (x y : PR) (l : list PR) (xs : list R).
Open Scope R_scope.

Lemma pr_defined_or_not l :
  (∃ xs, l = Some <$> xs) ∨ (∃ i, l !! i = Some None).
Proof.
  induction l as [|[a|] l [[xs ->]|[i Hi]]].
  - left. by exists [].
  - left. by exists (a :: xs).
  - right. by exists (S i).
  - right. by exists 0%nat.
  - right. by exists 0%nat.
Qed.

Lemma pr_foldl_max_Some (a : R) xs :
  foldl fmax (Some a) (Some <$> xs) = Some (foldl Rmax a xs).
Proof. revert a. induction xs as [|b xs IH]; intros a; [done|]. apply IH. Qed.

Lemma pr_foldl_max_None l : foldl fmax None l = None.
Proof. induction l as [|x l IH]; [done|]. exact IH. Qed.

Lemma pr_row_max_None l i : l !! i = Some None → row_max l = None.
Proof.
  destruct l as [|x l]; [done|]. cbn [row_max]. revert x i.
  induction l as [|y l IH]; intros x [|i] Hi; try done.
  - injection Hi as ->. apply pr_foldl_max_None.
  - injection Hi as ->. apply pr_foldl_max_None.
  - cbn in Hi. destruct i as [|i].
    + injection Hi as ->. cbn [foldl].
      replace (fmax x None) with (@None R) by by destruct x.
      apply pr_foldl_max_None.
    + cbn [foldl]. by apply (IH _ (S i)).
Qed.

Lemma pr_row_max_Some xs : ∃ m : R, row_max (Some <$> xs) = Some m.
Proof.
  destruct xs as [|a xs]; [by exists 0|].
  eexists. apply pr_foldl_max_Some.
Qed.

(** The shifted exponentials sum to [exp (-m)] times the sum of the
    exponentials. *)
Lemma pr_sum_exp_shift xs (m : R) l :
  fsum (zip_with fmul (fexp <$> (Some <$> ((λ a, a - m) <$> xs))) l)
  = fmul (Some (exp (- m))) (fsum (zip_with fmul (fexp <$> (Some <$> xs)) l)).
Proof.
  revert l. induction xs as [|a xs IH]; intros [|b l]; cbn [fmap list_fmap zip_with].
  - cbn. f_equal. lra.
  - cbn. f_equal. lra.
  - cbn. f_equal. lra.
  - rewrite !pr_fsum_cons, IH.
    destruct b as [b|], (fsum (zip_with fmul (fexp <$> (Some <$> xs)) l)) as [s|];
      cbn; try done.
    f_equal. unfold Rminus. rewrite exp_plus. ring.
Qed.

Lemma pr_all_None (f : PR → PR) l :
  (∀ x, x ∈ l → f x = None) → f <$> l = (λ _, None) <$> l.
Proof. intros Hf. apply list_fmap_ext. intros i x Hx. apply Hf. by eapply list_elem_of_lookup_2. Qed.

Lemma pr_sub_None x : fsub x None = None.
Proof. by destruct x. Qed.

(** A row of log-probabilities does not change when the row maximum,
    or any other real, is subtracted from the logits first. *)
Lemma pr_row_log_prob_shift l lm :
  length l = length lm →
  row_log_prob (shift_row l) lm = row_log_prob l lm.
Proof.
  intros Hlen.
  destruct (pr_defined_or_not l) as [[xs ->]|[i Hi]].
  - destruct (pr_row_max_Some xs) as [m Hm].
    assert (shift_row (Some <$> xs) = Some <$> ((λ a, a - m) <$> xs)) as ->.
    { unfold shift_row. rewrite Hm, <- !list_fmap_compose. done. }
    unfold row_log_prob. rewrite pr_sum_exp_shift.
    destruct (fsum (zip_with fmul (fexp <$> (Some <$> xs)) lm)) as [s|].
    2:{ cbn [fmul PR_scalar pr_lift2 flog pr_log].
        rewrite !(pr_all_None (λ x, fsub x None)) by (intros; apply pr_sub_None).
        by rewrite <- !list_fmap_compose. }
    cbn [fmul PR_scalar pr_lift2 flog pr_log].
    pose proof (exp_pos (- m)) as He.
    destruct (Rlt_dec 0 s) as [Hs|Hs].
    + destruct (Rlt_dec 0 (exp (- m) * s)) as [_|Hn].
      2:{ destruct Hn. by apply Rmult_lt_0_compat. }
      rewrite ln_mult, ln_exp by done.
      rewrite <- !list_fmap_compose. apply list_fmap_ext. intros j a _.
      cbn. f_equal. lra.
    + destruct (Rlt_dec 0 (exp (- m) * s)) as [Hp|_].
      { destruct Hs. nra. }
      rewrite !(pr_all_None (λ x, fsub x None)) by (intros; apply pr_sub_None).
      by rewrite <- !list_fmap_compose.
  - assert (shift_row l = (λ _, None) <$> l) as ->.
    { unfold shift_row. rewrite (pr_row_max_None _ _ Hi).
      apply pr_all_None. intros; apply pr_sub_None. }
    unfold row_log_prob.
    assert (fsum (zip_with fmul (fexp <$> l) lm) = None) as ->.
    { destruct (lookup_lt_is_Some_2 lm i) as [b Hb].
      { rewrite <- Hlen. by eapply lookup_lt_Some. }
      apply (pr_fsum_None _ i).
      by rewrite lookup_zip_with, list_lookup_fmap, Hi, Hb. }
    cbn [flog PR_scalar pr_log].
    rewrite (pr_all_None (λ x, fsub x None) l) by (intros; apply pr_sub_None).
    rewrite <- list_fmap_compose. apply list_fmap_ext. by intros j [a|] _.
Qed.
End shift.

Lemma zip_with_ext_lookup {X Y Z} (f g : X → Y → Z) (a : list X) (b : list Y) :
  (∀ i x y, a !! i = Some x → b !! i = Some y → f x y = g x y) →
  zip_with f a b = zip_with g a b.
Proof.
  revert b. induction a as [|x a IH]; intros [|y b] Hfg; try done.
  cbn. f_equal.
  - by apply (Hfg 0%nat).
  - apply IH. intros i. apply (Hfg (S i)).
Qed.

Lemma pr_log_prob_shift (adc lm : matrix PR) N M :
  has_shape adc N M → has_shape lm N M →
  zip_with row_log_prob (shift_row <$> adc) lm = zip_with row_log_prob adc lm.
Proof.
  intros [_ Ha] [_ Hm]. rewrite zip_with_fmap_l.
  apply zip_with_ext_lookup. intros i x y Hx Hy.
  apply pr_row_log_prob_shift.
  rewrite (proj1 (Forall_lookup _ _) Ha _ _ Hx).
  by rewrite (proj1 (Forall_lookup _ _) Hm _ _ Hy).
Qed.

(** C2.  In exact arithmetic, for every well-formed call, subtracting
    from each row of logits its maximum (lines 73-74) changes nothing:
    [forward] and [forward] without these two lines agree on the
    log-probabilities and on every other local, hence on the loss (and
    on the exception, if one is raised).  With a known mode and a
    non-zero base temperature both return. *)
Theorem max_shift_invariant (self : SupConLoss PR) (features : tensor PR)
    (labels : option (list Z)) (mask : option (matrix PR)) (B V : nat) :
  well_formed features labels mask B V →
  forward_locals self features labels mask
    = forward_unshifted_locals self features labels mask ∧
  l_log_prob <$> forward_locals self features labels mask
    = l_log_prob <$> forward_unshifted_locals self features labels mask ∧
  forward self features labels mask
    = forward_unshifted self features labels mask ∧
  (valid_mode (contrast_mode self) →
   is_zero (base_temperature self) = false →
   ∃ loss, forward self features labels mask = Ok loss).
Proof.
  intros Hwf.
  assert (Hlocals : forward_locals self features labels mask
                    = forward_unshifted_locals self features labels mask).
  { unfold forward_locals, forward_unshifted_locals.
    destruct (compute_logits self features labels mask) as [fr|] eqn:Hfr;
      [|done].
    cbn [mbind result_bind].
    pose proof (compute_logits_inv _ _ _ _ _ Hfr)
      as (_ & _ & Hbs & Hcc & _ & Hpre & Hmode & Hac & Hadc).
    destruct (compute_logits_ok self features labels mask B V Hwf Hmode)
      as (fr' & Hfr' & Hshape).
    rewrite Hfr in Hfr'. injection Hfr' as <-.
    destruct Hwf as (Hr & HB & HV & HB1 & HV1 & Hlm).
    rewrite HB in Hbs, Hadc. rewrite HV in Hcc, Hac, Hadc.
    assert (1 ≤ anchor_count fr ≤ V) as [Hac1 Hle]
      by (rewrite Hac; case_bool_decide; lia).
    rewrite (stabilize_same _ _ _ Hadc) by nia. cbn [mbind result_bind].
    assert (Hn : batch_size fr * anchor_count fr = anchor_count fr * B)
      by (rewrite Hbs; lia).
    destruct (build_logits_mask_diag fr (tile_mask fr) (V * B))
      as (lm & Hlm' & Hsh & _).
    { rewrite Hn. unfold tile_mask. rewrite Hcc. by apply has_shape_repeat_2. }
    { rewrite Hn. by apply Nat.mul_le_mono_r. }
    rewrite Hn in Hsh.
    unfold compute_loss. rewrite Hlm'. cbn [mbind result_bind].
    destruct (mul_2 (tile_mask fr) lm) as [pos|]; [|done].
    cbn [mbind result_bind].
    rewrite (compute_log_prob_same _ _ _ _ (has_shape_shift _ _ _ Hadc) Hsh).
    rewrite (compute_log_prob_same _ _ _ _ Hadc Hsh).
    by rewrite (pr_log_prob_shift _ _ _ _ Hadc Hsh). }
  split_and!.
  - done.
  - by rewrite Hlocals.
  - unfold forward, forward_unshifted. by rewrite Hlocals.
  - intros Hmode Hbt.
    destruct (forward_locals_same self features labels mask B V
                Hwf Hmode Hbt) as (fr & lm & _ & _ & _ & Hrun).
    cbn zeta in Hrun. destruct Hrun as (_ & _ & _ & Hrun).
    eexists. unfold forward. by rewrite Hrun.
Qed.

Lemma max_shift_invariant_witness :
  forward (A:=PR)
    {| temperature := Some 1%R; contrast_mode := "all";
       base_temperature := Some 1%R |}
    (Tensor [2; 2; 1] [Some 1%R; Some 2%R; Some 3%R; Some 4%R])
    (Some [0%Z; 0%Z]) None
  = forward_unshifted
    {| temperature := Some 1%R; contrast_mode := "all";
       base_temperature := Some 1%R |}
    (Tensor [2; 2; 1] [Some 1%R; Some 2%R; Some 3%R; Some 4%R])
    (Some [0%Z; 0%Z]) None.
Proof.
  refine (proj1 (proj2 (proj2 (max_shift_invariant _ _ _ _ 2 2 _)))).
  unfold well_formed. cbn. split_and!; (lia || done).
Defined.

(** ** Line 92 in IEEE binary32 arithmetic *)

Section binary32.
Context (exp32 log32 : spec_float → spec_float).
Abbreviation F := (binary32_scalar exp32 log32).

Lemma binary32_div_zero x y :
  binary32_is_zero y = true → nonfinite (SFdiv 24 128 x y) = true.
Proof. by destruct x, y. Qed.

Lemma binary32_div_nonfinite x y :
  nonfinite x = true → nonfinite (SFdiv 24 128 x y) = true.
Proof. by destruct x, y. Qed.

Lemma binary32_mul_nonfinite x y :
  nonfinite y = true → nonfinite (SFmul 24 128 x y) = true.
Proof. by destruct x, y. Qed.

Lemma binary32_add_nonfinite_l x y :
  nonfinite x = true → nonfinite (SFadd 24 128 x y) = true.
Proof. by destruct x as [| [] | |], y as [| [] | |]. Qed.

Lemma binary32_add_nonfinite_r x y :
  nonfinite y = true → nonfinite (SFadd 24 128 x y) = true.
Proof. by destruct x as [| [] | |], y as [| [] | |]. Qed.

Lemma binary32_fsum_nonfinite (l : list spec_float) i x :
  l !! i = Some x → nonfinite x = true → nonfinite (fsum (H:=F) l) = true.
Proof.
  revert i. induction l as [|y l IH]; intros [|i] Hi Hx; try done.
  - injection Hi as ->. by apply binary32_add_nonfinite_l.
  - apply binary32_add_nonfinite_r. by apply (IH i).
Qed.

(** The first half of C4 in floating point: for a well-formed call with
    a known mode and a base temperature other than zero, [forward]
    returns, and a row of the tiled, self-excluded mask that sums to
    zero makes its mean log-probability and the loss NaN or infinite. *)
Lemma binary32_zero_positives_nonfinite
    (self : SupConLoss spec_float) (features : tensor spec_float)
    (labels : option (list Z)) (mask : option (matrix spec_float))
    (B V : nat) :
  well_formed features labels mask B V → valid_mode (contrast_mode self) →
  binary32_is_zero (base_temperature self) = false →
  ∃ loc : locals spec_float,
    forward_locals (H:=F) self features labels mask = Ok loc ∧
    forward (H:=F) self features labels mask = Ok (l_loss loc) ∧
    ∀ i row, l_mask loc !! i = Some row →
      binary32_is_zero (fsum (H:=F) row) = true →
      (∃ x, l_mean_log_prob_pos loc !! i = Some x ∧ nonfinite x = true) ∧
      nonfinite (l_loss loc) = true.
Proof.
  intros Hwf Hmode Hbt.
  destruct (forward_locals_same (H:=F) self features labels mask B V
              Hwf Hmode Hbt)
    as (fr & lm & Hfr & Hlm & Hac & Hrun).
  cbn zeta in Hrun. destruct Hrun as (Hmask & Hlp & Hlen & Hrun).
  eexists. split; [exact Hrun|]. split; [unfold forward; by rewrite Hrun|].
  cbn [l_loss l_mask l_mean_log_prob_pos].
  set (logits := shift_row <$> anchor_dot_contrast fr) in *.
  set (pos := zip_with (zip_with fmul) (tile_mask fr) lm) in *.
  set (log_prob := zip_with row_log_prob logits lm) in *.
  set (mlpp := zip_with fdiv (fsum <$> zip_with (zip_with fmul) pos log_prob)
                        (fsum <$> pos)) in *.
  intros i row Hi Hzero.
  assert (∃ x, mlpp !! i = Some x ∧ nonfinite x = true) as (x & Hx & Hnf).
  { destruct (lookup_lt_is_Some_2 log_prob i) as [lp Hlpi].
    { apply lookup_lt_Some in Hi. destruct Hmask, Hlp. lia. }
    eexists. split.
    - unfold mlpp.
      rewrite lookup_zip_with, !list_lookup_fmap, lookup_zip_with, Hi, Hlpi.
      done.
    - by apply binary32_div_zero. }
  split; [by exists x|].
  apply binary32_div_nonfinite.
  eapply (binary32_fsum_nonfinite _ i).
  - rewrite list_lookup_fmap, Hx. done.
  - by apply binary32_mul_nonfinite.
Qed.
End binary32.

(** ** Examples *)

(** The unsupervised default with two views of two samples, mode 'one':
    the mask before tiling and the self-contrast mask. *)
Example two_views_masks :
  ∃ fr : logits_frame PR,
    compute_logits
      {| temperature := Some 1%R; contrast_mode := "one";
         base_temperature := Some 1%R |}
      (Tensor [2; 2; 1] [Some 1%R; Some 2%R; Some 3%R; Some 4%R])
      None None = Ok fr ∧
    mask_pre fr = [[Some 1%R; Some 0%R]; [Some 0%R; Some 1%R]] ∧
    contrast_feature fr = [[Some 1%R]; [Some 3%R]; [Some 2%R]; [Some 4%R]] ∧
    anchor_feature fr = [[Some 1%R]; [Some 3%R]] ∧
    build_logits_mask fr (tile_mask fr)
    = Ok [[Some 0%R; Some 1%R; Some 1%R; Some 1%R];
          [Some 1%R; Some 0%R; Some 1%R; Some 1%R]].
Proof. eexists. by split_and!. Qed.

(** The unsupervised default with a single view: no row has a positive,
    [forward] returns, and the loss is not finite. *)
Example single_view_default_nonfinite :
  forward
    {| temperature := Some 1%R; contrast_mode := "all";
       base_temperature := Some 1%R |}
    (Tensor [2; 1; 1] [Some 1%R; Some 2%R]) None None
  = Ok None.
Proof.
  cbv -[Req_dec_T Rlt_dec Rplus Rmult Rminus Rdiv Ropp Rinv exp ln Rmax IZR INR].
  repeat match goal with
         | |- context [Req_dec_T ?a ?b] => destruct (Req_dec_T a b); try lra
         | |- context [Rlt_dec ?a ?b] => destruct (Rlt_dec a b)
         end; reflexivity.
Qed.

(** A zero base temperature makes Python's division raise. *)
Example zero_base_temperature :
  forward
    {| temperature := Some 1%R; contrast_mode := "all";
       base_temperature := Some 0%R |}
    (Tensor [2; 2; 1] [Some 1%R; Some 2%R; Some 3%R; Some 4%R]) None None
  = Err ZeroDivisionError.
Proof.
  cbv -[Req_dec_T Rlt_dec Rplus Rmult Rminus Rdiv Ropp Rinv exp ln Rmax IZR INR].
  destruct (Req_dec_T 0 0) as [_|E]; [reflexivity|by destruct E].
Qed.

(** Features of rank 4 are flattened; an empty batch of rank 4 cannot be. *)
Example rank_4_features :
  reshape_features (Tensor [2; 1; 1; 2] [Some 1%R; Some 2%R; Some 3%R; Some 4%R])
  = Ok (Tensor [2; 1; 2] [Some 1%R; Some 2%R; Some 3%R; Some 4%R]) ∧
  reshape_features (Tensor [0; 2; 3; 4] (@nil PR)) = Err TorchError.
Proof. by split. Qed.

(** * Further properties of [forward] *)

(** ** Empty batches and batches without views *)

Section empty_input.
Context {A : Type} `{Scalar A}.
Implicit Types (self : SupConLoss A) (features : tensor A).
Implicit Types (labels : option (list Z)) (mask : option (matrix A)).

Lemma length_zero_nil {X} (l : list X) : length l = 0 → l = [].
Proof. by destruct l. Qed.

(** With no sample or no view there is no loss: a call that passes the
    checks of lines 38-66 is refused by torch, at the reshape of line 42
    (rank above 3), at the concatenation of line 58 (no view) or at the
    row maximum of line 73 (no sample). *)
Theorem forward_empty self features labels mask :
  3 ≤ length (shape features) →
  dim features 0 * dim features 1 = 0 →
  labels_mask_ok (dim features 0) labels mask →
  valid_mode (contrast_mode self) →
  forward self features labels mask = Err TorchError.
Proof.
  intros Hr Hz Hlm Hmode.
  assert (Decision (flattens features)) as [Hfl|Hfl]
    by (unfold flattens; apply _).
  2:{ by apply forward_logits_Err, compute_logits_ambiguous. }
  destruct (decide (dim features 1 = 0)) as [HV|HV].
  { by apply forward_no_views. }
  assert (dim features 0 = 0) as HB by nia.
  destruct (resolve_mask_ok _ _ _ Hlm) as [m0 Hm0].
  pose proof (length_concat_unbind_1 (flatten features)) as Hcf.
  pose proof (length_select_1 (flatten features) 0) as Haf.
  rewrite flatten_dim_0, HB in Hcf, Haf by done.
  rewrite Nat.mul_0_r in Hcf.
  apply length_zero_nil in Hcf, Haf.
  unfold forward, forward_locals.
  rewrite compute_logits_flat by done. cbn zeta. rewrite Hm0, Hcf, Haf.
  cbn [mbind result_bind]. rewrite (proj2 (Nat.eqb_neq _ _) HV).
  by destruct Hmode as [-> | ->].
Qed.
End empty_input.

Lemma forward_empty_witness :
  forward (A:=PR)
    {| temperature := Some 1%R; contrast_mode := "all";
       base_temperature := Some 1%R |}
    (Tensor [0; 2; 3] []) (Some []) None
  = Err TorchError.
Proof.
  apply forward_empty; [cbn; lia|reflexivity|reflexivity|by right].
Defined.

(** ** Line 95: a zero base temperature *)

Section zero_base_temperature.
Context {A : Type} `{Scalar A}.

Lemma compute_loss_zero_base self (fr : logits_frame A) (logits : matrix A) B V :
  batch_size fr = B → contrast_count fr = V →
  anchor_count fr ≤ V → has_shape (mask_pre fr) B B →
  has_shape logits (anchor_count fr * B) (V * B) →
  is_zero (base_temperature self) = true →
  compute_loss self fr logits = Err ZeroDivisionError.
Proof.
  intros Hbs Hcc Hle Hpre Hlogits Hbt.
  assert (Hn : batch_size fr * anchor_count fr = anchor_count fr * B)
    by (rewrite Hbs; lia).
  assert (Htile : has_shape (tile_mask fr) (anchor_count fr * B) (V * B)).
  { unfold tile_mask. rewrite Hcc. by apply has_shape_repeat_2. }
  destruct (build_logits_mask_diag fr (tile_mask fr) (V * B))
    as (lm & Hlm & Hsh & _).
  { by rewrite Hn. }
  { rewrite Hn. by apply Nat.mul_le_mono_r. }
  rewrite Hn in Hsh.
  pose proof (has_shape_zip_with fmul _ _ _ _ Htile Hsh) as Hmask.
  pose proof (has_shape_log_prob _ _ _ _ Hlogits Hsh) as Hlp.
  unfold compute_loss. rewrite Hlm. cbn [mbind result_bind]. unfold mul_2.
  rewrite (map2_2_same _ _ _ _ _ Htile Hsh). cbn [mbind result_bind].
  rewrite (compute_log_prob_same _ _ _ _ Hlogits Hsh).
  cbn [mbind result_bind].
  rewrite (map2_2_same _ _ _ _ _ Hmask Hlp). cbn [mbind result_bind].
  unfold div_1, sum_1. rewrite map2_1_same.
  2:{ rewrite !length_fmap, length_zip_with. destruct Hmask, Hlp. lia. }
  cbn [mbind result_bind]. unfold py_div. by rewrite Hbt.
Qed.

(** For a call within the input contract and with a known mode, the
    base temperature decides alone whether [forward] returns: it raises
    [ZeroDivisionError] when the base temperature is zero, and returns a
    loss otherwise.  A zero temperature does not raise. *)
Theorem forward_ZeroDivisionError_iff (self : SupConLoss A)
    (features : tensor A) (labels : option (list Z))
    (mask : option (matrix A)) (B V : nat) :
  well_formed features labels mask B V → valid_mode (contrast_mode self) →
  (forward self features labels mask = Err ZeroDivisionError ↔
     is_zero (base_temperature self) = true) ∧
  (is_zero (base_temperature self) = false ↔
     ∃ loss, forward self features labels mask = Ok loss).
Proof.
  intros Hwf Hmode.
  assert (Hok : is_zero (base_temperature self) = false →
                ∃ loss, forward self features labels mask = Ok loss).
  { intros Hbt.
    destruct (forward_locals_same self features labels mask B V
                Hwf Hmode Hbt) as (fr & lm & _ & _ & _ & Hrun).
    cbn zeta in Hrun. destruct Hrun as (_ & _ & _ & Hrun).
    eexists. unfold forward. by rewrite Hrun. }
  assert (Hzero : is_zero (base_temperature self) = true →
                  forward self features labels mask = Err ZeroDivisionError).
  { intros Hbt.
    destruct (compute_logits_ok self features labels mask B V Hwf Hmode)
      as (fr & Hfr & Hpre).
    destruct Hwf as (Hr & HB & HV & HB1 & HV1 & Hlm).
    pose proof (compute_logits_inv _ _ _ _ _ Hfr)
      as (_ & _ & Hbs & Hcc & _ & _ & _ & Hac & Hadc).
    rewrite HB in Hbs, Hadc. rewrite HV in Hcc, Hac, Hadc.
    assert (1 ≤ anchor_count fr ≤ V) as [Hac1 Hle]
      by (rewrite Hac; case_bool_decide; lia).
    unfold forward, forward_locals. rewrite Hfr. cbn [mbind result_bind].
    rewrite (stabilize_same _ _ _ Hadc) by nia. cbn [mbind result_bind].
    by rewrite (compute_loss_zero_base self fr _ B V Hbs Hcc Hle Hpre
                  (has_shape_shift _ _ _ Hadc) Hbt). }
  split; split.
  - intros Hf. destruct (is_zero (base_temperature self)); [done|].
    destruct Hok as [loss Hloss]; [done|]. congruence.
  - done.
  - done.
  - intros [loss Hloss]. destruct (is_zero (base_temperature self)); [|done].
    rewrite Hzero in Hloss; done.
Qed.
End zero_base_temperature.

Lemma forward_ZeroDivisionError_iff_witness :
  forward (A:=PR)
    {| temperature := Some 0%R; contrast_mode := "one";
       base_temperature := Some 0%R |}
    (Tensor [2; 2; 1] [Some 1%R; Some 2%R; Some 3%R; Some 4%R])
    (Some [3%Z; 3%Z]) None
  = Err ZeroDivisionError.
Proof.
  refine (proj2 (proj1 (forward_ZeroDivisionError_iff _ _ _ _ 2 2 _ _)) _).
  - unfold well_formed. cbn. split_and!; (lia || done).
  - by left.
  - cbn. destruct (Req_dec_T 0 0) as [_|E]; [done|by destruct E].
Defined.

(** ** Lines 58-71: the layout of the contrast set and the logits *)

Section layout.
Context {A : Type} `{Scalar A}.
Implicit Types (self : SupConLoss A) (features : tensor A).
Implicit Types (labels : option (list Z)) (mask : option (matrix A)).

Lemma lookup_concat_const {X} (ls : matrix X) b k i :
  Forall (λ l, length l = b) ls → i < b →
  concat ls !! (k * b + i) = (l ← ls !! k; l !! i).
Proof.
  intros Hls Hi. revert k. induction Hls as [|l ls Hl _ IH]; intros k.
  - by destruct k.
  - destruct k as [|k]; cbn.
    + by rewrite lookup_app_l by lia.
    + rewrite lookup_app_r by lia.
      replace (b + k * b + i - length l) with (k * b + i) by lia.
      apply IH.
Qed.

Lemma data_flatten features : data (flatten features) = data features.
Proof. unfold flatten. by destruct (3 <? _). Qed.

(** The fields of a frame in terms of the reshaped features. *)
Lemma compute_logits_frame self features labels mask fr :
  compute_logits self features labels mask = Ok fr →
  let f := flatten features in
  contrast_feature fr = concat (unbind_1 f) ∧
  anchor_feature fr =
    (if bool_decide (contrast_mode self = "one")
     then select_1 f 0 else concat (unbind_1 f)) ∧
  anchor_dot_contrast fr =
    div_scalar (matmul_T (anchor_feature fr) (contrast_feature fr))
               (temperature self).
Proof.
  intros Hfr.
  pose proof (compute_logits_inv _ _ _ _ _ Hfr) as (Hr & Hfl & _).
  rewrite compute_logits_flat in Hfr by done. cbn zeta in Hfr.
  destruct (resolve_mask _ _ _) as [m|]; [|done].
  cbn [mbind result_bind] in Hfr.
  destruct (dim features 1 =? 0); [done|].
  destruct (bool_decide (contrast_mode self = "one")).
  { by injection Hfr as <-. }
  destruct (bool_decide (contrast_mode self = "all")); [|done].
  by injection Hfr as <-.
Qed.

(** The contrast set lists the views one after the other, each with the
    samples in batch order: its row [v * B + b] is the feature vector of
    sample [b] in view [v], the segment of the storage at offset
    [(b * V + v) * D].  In mode 'one' the anchors are its first [B]
    rows (view 0); in mode 'all' they are all its rows. *)
Theorem contrast_feature_layout self features labels mask fr :
  compute_logits self features labels mask = Ok fr →
  let B := dim features 0 in
  let V := dim features 1 in
  let D := dim (flatten features) 2 in
  length (contrast_feature fr) = V * B ∧
  (∀ v b, v < V → b < B →
     contrast_feature fr !! (v * B + b)
     = Some (take D (drop ((b * V + v) * D) (data features)))) ∧
  (contrast_mode self = "one" →
     length (anchor_feature fr) = B ∧
     ∀ b, b < B → anchor_feature fr !! b = contrast_feature fr !! b) ∧
  (contrast_mode self = "all" → anchor_feature fr = contrast_feature fr).
Proof.
  intros Hfr B V D.
  pose proof (compute_logits_inv _ _ _ _ _ Hfr) as (Hr & Hfl & _ & _ & HV & _).
  destruct (compute_logits_frame _ _ _ _ _ Hfr) as (Hcf & Haf & _).
  cbn zeta in Hcf, Haf.
  assert (HB' : dim (flatten features) 0 = B) by by apply flatten_dim_0.
  assert (HV' : dim (flatten features) 1 = V) by by apply flatten_dim_1.
  assert (Hrow : ∀ v b, v < V → b < B →
            concat (unbind_1 (flatten features)) !! (v * B + b)
            = Some (take D (drop ((b * V + v) * D) (data features)))).
  { intros v b Hv Hb. rewrite (lookup_concat_const _ B); [|  |done].
    - unfold unbind_1. rewrite list_lookup_fmap, HV', lookup_seq_lt by done.
      cbn. unfold select_1.
      rewrite list_lookup_fmap, HB', lookup_seq_lt by done. cbn.
      by rewrite HV', data_flatten.
    - unfold unbind_1. apply Forall_fmap, Forall_forall. intros w _.
      exact (eq_trans (length_select_1 _ _) HB'). }
  split_and!.
  - rewrite Hcf, length_concat_unbind_1. by rewrite HB', HV'.
  - intros v b Hv Hb. rewrite Hcf. by apply Hrow.
  - intros Hone. rewrite Haf, Hcf, Hone, bool_decide_eq_true_2 by done. split.
    + by rewrite length_select_1.
    + intros b Hb.
      assert (0 < V) as HV0 by (unfold V; lia).
      pose proof (Hrow 0 b HV0 Hb) as Hb0.
      change (0 * B + b) with b in Hb0. rewrite Hb0.
      unfold select_1.
      rewrite list_lookup_fmap, HB', lookup_seq_lt by done. cbn.
      by rewrite HV', data_flatten.
  - intros Hall. by rewrite Haf, Hcf, Hall, bool_decide_eq_false_2.
Qed.
End layout.

Lemma contrast_feature_layout_witness :
  ∃ fr : logits_frame PR,
    compute_logits
      {| temperature := Some 1%R; contrast_mode := "one";
         base_temperature := Some 1%R |}
      (Tensor [2; 2; 1] [Some 1%R; Some 2%R; Some 3%R; Some 4%R])
      None None = Ok fr ∧
    contrast_feature fr !! 1 = Some [Some 3%R] ∧
    contrast_feature fr !! 2 = Some [Some 2%R].
Proof.
  assert (∃ fr : logits_frame PR,
            compute_logits
              {| temperature := Some 1%R; contrast_mode := "one";
                 base_temperature := Some 1%R |}
              (Tensor [2; 2; 1] [Some 1%R; Some 2%R; Some 3%R; Some 4%R])
              None None = Ok fr) as [fr Hfr]
    by (eexists; reflexivity).
  exists fr. split; [exact Hfr|].
  pose proof (contrast_feature_layout _ _ _ _ _ Hfr) as (_ & Hrow & _).
  split; [exact (Hrow 0 1 ltac:(cbn; lia) ltac:(cbn; lia))|
          exact (Hrow 1 0 ltac:(cbn; lia) ltac:(cbn; lia))].
Defined.

(** ** Lines 77-85: the tiled mask and the positives *)

Lemma lookup_concat_replicate {X} n (l : list X) i :
  i < n * length l → concat (replicate n l) !! i = l !! (i mod length l).
Proof.
  revert i. induction n as [|n IH]; intros i Hi; [lia|].
  cbn [replicate concat].
  destruct (decide (i < length l)) as [Hlt|Hge].
  - by rewrite lookup_app_l, Nat.mod_small.
  - rewrite lookup_app_r, IH by lia. f_equal.
    replace i with (i - length l + 1 * length l) at 2 by lia.
    by rewrite Nat.Div0.mod_add.
Qed.

(** [m.repeat(a, b)[r, c] = m[r mod R, c mod C]] *)
Lemma entry_repeat_2 {X} (m : matrix X) R C a b r c :
  has_shape m R C → r < a * R → c < b * C →
  entry (repeat_2 m a b) r c = entry m (r mod R) (c mod C).
Proof.
  intros [HR HC] Hr Hc. unfold entry, repeat_2.
  rewrite lookup_concat_replicate by by rewrite length_fmap, HR.
  rewrite length_fmap, HR, list_lookup_fmap.
  destruct (lookup_lt_is_Some_2 m (r mod R)) as [row Hrow].
  { rewrite HR. apply Nat.mod_upper_bound. lia. }
  rewrite Hrow. cbn.
  pose proof (proj1 (Forall_lookup _ _) HC _ _ Hrow) as Hlen. cbn in Hlen.
  rewrite lookup_concat_replicate by by rewrite Hlen.
  by rewrite Hlen.
Qed.

Lemma entry_zip_with_Some {X Y Z} (f : X → Y → Z)
    (a : matrix X) (b : matrix Y) i j x y :
  entry a i j = Some x → entry b i j = Some y →
  entry (zip_with (zip_with f) a b) i j = Some (f x y).
Proof.
  unfold entry. intros Ha Hb. rewrite lookup_zip_with.
  destruct (a !! i) as [ra|]; [|done]. destruct (b !! i) as [rb|]; [|done].
  cbn in *. by rewrite lookup_zip_with, Ha, Hb.
Qed.

Section positives.
Context {A : Type} `{Scalar A}.

(** [forward_locals_same] with the frame's sizes and the entries of the
    self-contrast mask. *)
Lemma forward_locals_entries (self : SupConLoss A) (features : tensor A)
    (labels : option (list Z)) (mask : option (matrix A)) (B V : nat) :
  well_formed features labels mask B V → valid_mode (contrast_mode self) →
  is_zero (base_temperature self) = false →
  ∃ fr loc,
    compute_logits self features labels mask = Ok fr ∧
    forward_locals self features labels mask = Ok loc ∧
    batch_size fr = B ∧ contrast_count fr = V ∧
    1 ≤ anchor_count fr ≤ V ∧
    has_shape (mask_pre fr) B B ∧
    l_mask loc = zip_with (zip_with fmul) (tile_mask fr) (l_logits_mask loc) ∧
    has_shape (l_mask loc) (anchor_count fr * B) (V * B) ∧
    has_shape (l_log_prob loc) (anchor_count fr * B) (V * B) ∧
    l_mean_log_prob_pos loc
    = zip_with fdiv
        (fsum <$> zip_with (zip_with fmul) (l_mask loc) (l_log_prob loc))
        (fsum <$> l_mask loc) ∧
    l_loss loc
    = (let loss :=
         fmul (fneg (fdiv (temperature self) (base_temperature self)))
           <$> l_mean_log_prob_pos loc in
       fdiv (fsum loss) (of_nat (length loss))) ∧
    (∀ r c, r < anchor_count fr * B → c < V * B →
       entry (l_logits_mask loc) r c
       = Some (if r =? c then fzero else fone)).
Proof.
  intros Hwf Hmode Hbt.
  destruct (forward_locals_same self features labels mask B V Hwf Hmode Hbt)
    as (fr & lm & Hfr & Hlm & Hac1 & Hrun).
  cbn zeta in Hrun. destruct Hrun as (Hmask & Hlp & Hlen & Hrun).
  destruct (compute_logits_ok self features labels mask B V Hwf Hmode)
    as (fr' & Hfr' & Hpre).
  rewrite Hfr in Hfr'. injection Hfr' as <-.
  destruct Hwf as (Hr & HB & HV & HB1 & HV1 & Hlm0).
  pose proof (compute_logits_inv _ _ _ _ _ Hfr)
    as (_ & _ & Hbs & Hcc & _ & _ & _ & Hac & _).
  rewrite HB in Hbs. rewrite HV in Hcc, Hac.
  assert (anchor_count fr ≤ V) as Hle by (rewrite Hac; case_bool_decide; lia).
  assert (Hn : batch_size fr * anchor_count fr = anchor_count fr * B)
    by (rewrite Hbs; lia).
  destruct (build_logits_mask_diag fr (tile_mask fr) (V * B))
    as (lm' & Hlm' & _ & Hentry).
  { rewrite Hn. unfold tile_mask. rewrite Hcc. by apply has_shape_repeat_2. }
  { rewrite Hn. by apply Nat.mul_le_mono_r. }
  rewrite Hn in Hentry.
  assert (lm' = lm) as ->.
  { pose proof Hrun as Hrun'. unfold forward_locals in Hrun'.
    rewrite Hfr in Hrun'. cbn [mbind result_bind] in Hrun'.
    destruct (stabilize _) as [logits|]; [|done].
    cbn [mbind result_bind] in Hrun'.
    apply compute_loss_logits_mask in Hrun'. cbn in Hrun'.
    rewrite Hlm' in Hrun'. by injection Hrun'. }
  eexists fr, _. split; [done|]. split; [exact Hrun|].
  cbn [l_mask l_logits_mask l_log_prob l_mean_log_prob_pos l_loss].
  by split_and!.
Qed.

Lemma tiled_positive_entry (fr : logits_frame A) (lm : matrix A) B V r c :
  has_shape (mask_pre fr) B B → contrast_count fr = V → B ≠ 0 →
  r < anchor_count fr * B → c < V * B →
  entry lm r c = Some (if r =? c then fzero else fone) →
  ∃ m, entry (mask_pre fr) (r mod B) (c mod B) = Some m ∧
       entry (tile_mask fr) r c = Some m ∧
       entry (zip_with (zip_with fmul) (tile_mask fr) lm) r c
       = Some (fmul m (if r =? c then fzero else fone)).
Proof.
  intros Hpre Hcc HB0 Hr Hc Hlm.
  destruct (has_shape_entry (mask_pre fr) B B (r mod B) (c mod B) Hpre)
    as [m Hm]; [by apply Nat.mod_upper_bound..|].
  assert (entry (tile_mask fr) r c = Some m) as Htile.
  { unfold tile_mask. rewrite Hcc.
    by rewrite (entry_repeat_2 _ B B). }
  exists m. split_and!; try done.
  by apply entry_zip_with_Some.
Qed.

(** The positives of [forward] (the mask after line 85): entry [(r, c)]
    is the entry [(r mod B, c mod B)] of the mask before tiling, times 0
    on the diagonal [r = c] and times 1 elsewhere. *)
Theorem positives_entries (self : SupConLoss A) (features : tensor A)
    (labels : option (list Z)) (mask : option (matrix A)) (B V : nat) :
  well_formed features labels mask B V → valid_mode (contrast_mode self) →
  is_zero (base_temperature self) = false →
  ∃ fr loc,
    compute_logits self features labels mask = Ok fr ∧
    forward_locals self features labels mask = Ok loc ∧
    has_shape (l_mask loc) (anchor_count fr * B) (V * B) ∧
    ∀ r c, r < anchor_count fr * B → c < V * B →
      ∃ m, entry (mask_pre fr) (r mod B) (c mod B) = Some m ∧
           entry (tile_mask fr) r c = Some m ∧
           entry (l_mask loc) r c
           = Some (fmul m (if r =? c then fzero else fone)).
Proof.
  intros Hwf Hmode Hbt.
  destruct (forward_locals_entries self features labels mask B V
              Hwf Hmode Hbt)
    as (fr & loc & Hfr & Hloc & Hbs & Hcc & Hac & Hpre & Hmask & Hsh & _
        & _ & _ & Hlm).
  exists fr, loc. split_and!; try done.
  intros r c Hr Hc.
  assert (B ≠ 0) as HB0 by (destruct Hwf as (_ & _ & _ & ? & _); lia).
  rewrite Hmask.
  apply (tiled_positive_entry fr _ B V); try done. by apply Hlm.
Qed.
End positives.

Lemma positives_entries_witness :
  ∃ (fr : logits_frame PR) (loc : locals PR),
    compute_logits
      {| temperature := Some 1%R; contrast_mode := "all";
         base_temperature := Some 1%R |}
      (Tensor [2; 2; 1] [Some 1%R; Some 2%R; Some 3%R; Some 4%R])
      None None = Ok fr ∧
    forward_locals
      {| temperature := Some 1%R; contrast_mode := "all";
         base_temperature := Some 1%R |}
      (Tensor [2; 2; 1] [Some 1%R; Some 2%R; Some 3%R; Some 4%R])
      None None = Ok loc ∧
    has_shape (l_mask loc) (anchor_count fr * 2) (2 * 2).
Proof.
  destruct (positives_entries (A:=PR)
              {| temperature := Some 1%R; contrast_mode := "all";
                 base_temperature := Some 1%R |}
              (Tensor [2; 2; 1] [Some 1%R; Some 2%R; Some 3%R; Some 4%R])
              None None 2 2)
    as (fr & loc & Hfr & Hloc & Hsh & _).
  - unfold well_formed. cbn. split_and!; (lia || done).
  - by right.
  - cbn. destruct (Req_dec_T 1 0) as [E|_]; [lra|done].
  - by exists fr, loc.
Defined.

(** ** Line 92: rows without positives *)

(** C4.  In exact arithmetic, for a well-formed call with a known mode
    and a non-zero base temperature: [forward] returns (no exception),
    whatever the rows of the tiled, self-excluded mask sum to.  That
    mask has one row for every anchor, at least one, and its entry
    [(r, c)] is the entry [(r mod B, c mod B)] of the mask that lines
    45-55 resolve, times 0 for [r = c] and times 1 elsewhere; there is
    one mean log-probability for every row.  A row that sums to zero
    gets a non-finite mean log-probability, and the loss is then
    non-finite.  A row with at least one positive has a divisor that
    is a non-zero real, and its mean log-probability is the quotient,
    finite whenever the numerator is. *)
Theorem zero_positives_nonfinite (self : SupConLoss PR) (features : tensor PR)
    (labels : option (list Z)) (mask : option (matrix PR)) (B V : nat) :
  well_formed features labels mask B V → valid_mode (contrast_mode self) →
  is_zero (base_temperature self) = false →
  ∃ (fr : logits_frame PR) (loc : locals PR),
    compute_logits self features labels mask = Ok fr ∧
    resolve_mask B labels mask = Ok (mask_pre fr) ∧
    forward_locals self features labels mask = Ok loc ∧
    forward self features labels mask = Ok (l_loss loc) ∧
    1 ≤ anchor_count fr ∧
    has_shape (l_mask loc) (anchor_count fr * B) (V * B) ∧
    (∀ r c, r < anchor_count fr * B → c < V * B →
       ∃ m, entry (mask_pre fr) (r mod B) (c mod B) = Some m ∧
            entry (l_mask loc) r c
            = Some (fmul m (if r =? c then fzero else fone))) ∧
    length (l_mean_log_prob_pos loc) = anchor_count fr * B ∧
    length (l_mean_log_prob_pos loc) = length (l_mask loc) ∧
    (∀ i (row : list PR), l_mask loc !! i = Some row → fsum row = Some 0%R →
       l_mean_log_prob_pos loc !! i = Some None ∧ l_loss loc = None) ∧
    (∀ i (row : list PR), l_mask loc !! i = Some row → has_positive row →
       ∃ (d : R) (lp : list PR),
         fsum row = Some d ∧ d ≠ 0%R ∧
         l_log_prob loc !! i = Some lp ∧
         ∀ n, fsum (zip_with fmul row lp) = Some n →
              l_mean_log_prob_pos loc !! i = Some (Some (n / d)%R)).
Proof.
  intros Hwf Hmode Hbt.
  destruct (forward_locals_entries self features labels mask B V
              Hwf Hmode Hbt)
    as (fr & loc & Hfr & Hloc & Hbs & Hcc & Hac & Hpre & Hmask & Hsh & Hlp
        & Hmlpp & Hloss & Hlm).
  pose proof (compute_logits_inv _ _ _ _ _ Hfr)
    as (_ & _ & _ & _ & _ & Hres & _).
  destruct Hwf as (_ & HB & _ & HB1 & _ & _). rewrite HB in Hres.
  assert (Hlen : length (l_mean_log_prob_pos loc) = anchor_count fr * B).
  { rewrite Hmlpp, length_zip_with, !length_fmap, length_zip_with.
    destruct Hsh as [-> _], Hlp as [-> _]. lia. }
  assert (Hrow : ∀ i row, l_mask loc !! i = Some row →
            ∃ lp, l_log_prob loc !! i = Some lp ∧
                  l_mean_log_prob_pos loc !! i
                  = Some (fdiv (fsum (zip_with fmul row lp)) (fsum row))).
  { intros i row Hi.
    destruct (lookup_lt_is_Some_2 (l_log_prob loc) i) as [lp Hlpi].
    { apply lookup_lt_Some in Hi. destruct Hsh, Hlp. lia. }
    exists lp. split; [done|]. rewrite Hmlpp.
    rewrite lookup_zip_with, !list_lookup_fmap, lookup_zip_with, Hi, Hlpi.
    done. }
  exists fr, loc. split_and!; try done.
  - unfold forward. by rewrite Hloc.
  - lia.
  - intros r c Hr Hc. rewrite Hmask.
    destruct (tiled_positive_entry fr (l_logits_mask loc) B V r c)
      as (m & Hm & _ & Hp); [done|done|lia|done|done|by apply Hlm|].
    by exists m.
  - rewrite Hlen. by destruct Hsh as [-> _].
  - intros i row Hi Hzero.
    destruct (Hrow i row Hi) as (lp & _ & Hm).
    rewrite Hzero, pr_div_zero in Hm. split; [done|].
    rewrite Hloss. cbn zeta. rewrite (pr_fsum_None _ i); [done|].
    rewrite list_lookup_fmap, Hm. cbn.
    by destruct (pr_div (temperature self) (base_temperature self)).
  - intros i row Hi Hpos.
    destruct (Hrow i row Hi) as (lp & Hlpi & Hm).
    destruct (pr_fsum_positive row Hpos) as (d & Hd & Hd0).
    exists d, lp. split_and!; try done.
    + intros ->. by apply Rlt_irrefl in Hd0.
    + intros n Hn. rewrite Hn, Hd, pr_div_nonzero in Hm; [exact Hm|].
      intros ->. by apply Rlt_irrefl in Hd0.
Qed.

Lemma zero_positives_nonfinite_witness :
  ∃ (loc : locals PR) (row : list PR),
    forward_locals
      {| temperature := Some 1%R; contrast_mode := "all";
         base_temperature := Some 1%R |}
      (Tensor [2; 1; 1] [Some 1%R; Some 2%R]) None None = Ok loc ∧
    l_mask loc !! 0 = Some row ∧ fsum row = Some 0%R ∧
    l_mean_log_prob_pos loc !! 0 = Some None ∧
    forward
      {| temperature := Some 1%R; contrast_mode := "all";
         base_temperature := Some 1%R |}
      (Tensor [2; 1; 1] [Some 1%R; Some 2%R]) None None = Ok None.
Proof.
  destruct (zero_positives_nonfinite
              {| temperature := Some 1%R; contrast_mode := "all";
                 base_temperature := Some 1%R |}
              (Tensor [2; 1; 1] [Some 1%R; Some 2%R]) None None 2 1)
    as (fr & loc & Hfr & Hres & Hloc & Hfw & Hac & Hsh & Hent & _ & _
        & Hzero & _).
  - unfold well_formed. cbn. split_and!; (lia || done).
  - by right.
  - cbn. destruct (Req_dec_T 1 0) as [E|_]; [lra|done].
  - destruct (lookup_lt_is_Some_2 (l_mask loc) 0) as [row Hrow].
    { destruct Hsh as [-> _]. lia. }
    assert (fsum row = Some 0%R) as Hsum.
    { cbn in Hres. injection Hres as Hpre.
      pose proof (has_shape_lookup _ _ _ _ _ Hsh Hrow) as Hlen.
      destruct (Hent 0 0) as (m0 & Hm0 & He0); [lia|lia|].
      destruct (Hent 0 1) as (m1 & Hm1 & He1); [lia|lia|].
      rewrite <- Hpre in Hm0, Hm1. cbn in Hm0, Hm1.
      injection Hm0 as <-. injection Hm1 as <-.
      unfold entry in He0, He1. rewrite Hrow in He0, He1.
      destruct row as [|a [|b [|c row]]]; try done.
      cbn in He0, He1. injection He0 as ->. injection He1 as ->.
      cbn. f_equal. lra. }
    destruct (Hzero 0 row Hrow Hsum) as [Hm Hl].
    exists loc, row. split_and!; try done. by rewrite Hfw, Hl.
Defined.

(** ** The unsupervised default needs two views *)

Section unsupervised.
Open Scope R_scope.

Lemma pr_fsum_zero (l : list PR) :
  Forall (λ x, x = Some 0 ∨ x = Some (1 * 0) ∨ x = Some (0 * 1)) l →
  ∃ z : R, fsum l = Some z ∧ z = 0.
Proof.
  induction 1 as [|x l Hx _ (z & IH & Hz)].
  - by exists 0.
  - rewrite pr_fsum_cons, IH. destruct Hx as [-> | [-> | ->]];
      eexists; (split; [reflexivity|lra]).
Qed.

(** Without labels and without a mask the positives of a sample are its
    other views.  With a single view no row has a positive and the loss
    is not finite, whatever the features; with two views or more every
    row has a positive. *)
Theorem unsupervised_positives (self : SupConLoss PR) (features : tensor PR)
    (B V : nat) :
  well_formed features None None B V → valid_mode (contrast_mode self) →
  is_zero (base_temperature self) = false →
  ∃ loc : locals PR,
    forward_locals self features None None = Ok loc ∧
    (V = 1%nat →
       (∀ row, row ∈ l_mask loc → ∃ z : R, fsum row = Some z ∧ z = 0) ∧
       l_loss loc = None ∧
       forward self features None None = Ok None) ∧
    ((2 ≤ V)%nat → ∀ row, row ∈ l_mask loc → has_positive row).
Proof.
  intros Hwf Hmode Hbt.
  destruct (forward_locals_entries self features None None B V Hwf Hmode Hbt)
    as (fr & loc & Hfr & Hloc & _ & Hcount & Hac & Hshpre & Hmask & Hsh & Hlp
        & Hmlpp & Hloss & Hlm).
  pose proof (compute_logits_inv _ _ _ _ _ Hfr)
    as (_ & _ & _ & _ & _ & Hpre & _).
  destruct Hwf as (Hr & HB & HV & HB1 & HV1 & _).
  rewrite HB in Hpre. cbn in Hpre. injection Hpre as Hpre.
  assert (Hentry : ∀ r c, (r < anchor_count fr * B)%nat → (c < V * B)%nat →
            ∃ m, entry (mask_pre fr) (r mod B) (c mod B) = Some m ∧
                 entry (tile_mask fr) r c = Some m ∧
                 entry (l_mask loc) r c
                 = Some (fmul m (if (r =? c)%nat then fzero else fone))).
  { intros r c Hrr Hcc'. rewrite Hmask.
    apply (tiled_positive_entry fr _ B V); try done; [lia|]. by apply Hlm. }
  assert (Hval : ∀ r c, (r < anchor_count fr * B)%nat → (c < V * B)%nat →
            entry (l_mask loc) r c
            = Some (fmul (if (r mod B =? c mod B)%nat then Some 1 else Some 0)
                         (if (r =? c)%nat then Some 0 else Some 1))).
  { intros r c Hrr Hcc. destruct (Hentry r c Hrr Hcc) as (m & Hm & _ & ->).
    rewrite <- Hpre, entry_eye in Hm by (apply Nat.mod_upper_bound; lia).
    by injection Hm as <-. }
  exists loc. split; [done|]. split.
  - intros ->.
    assert (anchor_count fr = 1%nat) as Hac1 by lia.
    rewrite Hac1, !Nat.mul_1_l in *.
    assert (Hrows : ∀ row, row ∈ l_mask loc →
              ∃ z : R, fsum row = Some z ∧ z = 0).
    { intros row [r Hrow]%list_elem_of_lookup. apply pr_fsum_zero.
      apply Forall_lookup. intros c x Hx.
      assert (r < B)%nat as Hrr.
      { apply lookup_lt_Some in Hrow. by destruct Hsh as [<- _]. }
      assert (c < B)%nat as Hcc.
      { apply lookup_lt_Some in Hx.
        by rewrite (has_shape_lookup _ _ _ _ _ Hsh Hrow) in Hx. }
      pose proof (Hval r c Hrr Hcc) as He. unfold entry in He.
      rewrite Hrow in He. cbn [mbind option_bind] in He. rewrite Hx in He.
      injection He as ->. rewrite !Nat.mod_small by done.
      destruct (r =? c)%nat; cbn; auto. }
    assert (l_loss loc = None) as Hnone.
    { destruct (lookup_lt_is_Some_2 (l_mask loc) 0) as [row Hrow].
      { destruct Hsh as [-> _]. lia. }
      destruct (Hrows row) as (z & Hz & ->);
        [by eapply list_elem_of_lookup_2|].
      destruct (lookup_lt_is_Some_2 (l_log_prob loc) 0) as [lp Hlp0].
      { destruct Hlp as [-> _]. lia. }
      rewrite Hloss. cbn zeta. rewrite (pr_fsum_None _ 0); [done|].
      rewrite list_lookup_fmap, Hmlpp.
      rewrite lookup_zip_with, !list_lookup_fmap, lookup_zip_with, Hrow, Hlp0.
      cbn [mbind option_bind fmap option_fmap option_map].
      rewrite Hz, pr_div_zero. cbn.
      by destruct (pr_div (temperature self) (base_temperature self)). }
    split_and!; [done..|]. unfold forward. by rewrite Hloc, <- Hnone.
  - intros HV2 row [r Hrow]%list_elem_of_lookup.
    assert (r < anchor_count fr * B)%nat as Hrr.
    { apply lookup_lt_Some in Hrow. by destruct Hsh as [<- _]. }
    pose proof (has_shape_lookup _ _ _ _ _ Hsh Hrow) as Hlen.
    split.
    + apply Forall_lookup. intros c x Hx.
      assert (c < V * B)%nat as Hcc
        by (apply lookup_lt_Some in Hx; by rewrite Hlen in Hx).
      pose proof (Hval r c Hrr Hcc) as He. unfold entry in He.
      rewrite Hrow in He. cbn [mbind option_bind] in He. rewrite Hx in He.
      injection He as ->.
      destruct (r mod B =? c mod B)%nat, (r =? c)%nat; cbn;
        eexists; (split; [reflexivity|lra]).
    + set (c := if decide (r < B)%nat then (r + B)%nat else (r - B)%nat).
      assert (c < V * B ∧ c ≠ r ∧ r mod B = c mod B)%nat as (Hcc & Hne & Hmod).
      { unfold c. destruct (decide (r < B)%nat) as [Hlt|Hge].
        - split_and!; [nia|lia|].
          replace (r + B)%nat with (r + 1 * B)%nat by lia.
          by rewrite Nat.Div0.mod_add.
        - split_and!; [nia|lia|].
          replace r with (r - B + 1 * B)%nat at 1 by lia.
          by rewrite Nat.Div0.mod_add. }
      destruct (lookup_lt_is_Some_2 row c) as [x Hx]; [by rewrite Hlen|].
      apply Exists_exists. exists x. split; [by eapply list_elem_of_lookup_2|].
      pose proof (Hval r c Hrr Hcc) as He. unfold entry in He.
      rewrite Hrow in He. cbn [mbind option_bind] in He. rewrite Hx in He.
      injection He as ->.
      rewrite (proj2 (Nat.eqb_eq _ _) Hmod).
      rewrite (proj2 (Nat.eqb_neq r c)) by done.
      cbn. eexists. split; [reflexivity|lra].
Qed.
End unsupervised.

Lemma unsupervised_positives_witness :
  forward (A:=PR)
    {| temperature := Some 1%R; contrast_mode := "one";
       base_temperature := Some 1%R |}
    (Tensor [3; 1; 2] (replicate 6 (Some 1%R))) None None
  = Ok None.
Proof.
  destruct (unsupervised_positives
              {| temperature := Some 1%R; contrast_mode := "one";
                 base_temperature := Some 1%R |}
              (Tensor [3; 1; 2] (replicate 6 (Some 1%R))) 3 1)
    as (loc & _ & Hone & _).
  - unfold well_formed. cbn. split_and!; (lia || done).
  - by left.
  - cbn. destruct (Req_dec_T 1 0) as [E|_]; [lra|done].
  - by destruct (Hone eq_refl) as (_ & _ & Hf).
Defined.

(** ** Lines 73-74: what the shift achieves *)

Section stabilized.
Open Scope R_scope.




End stabilized.


(** In floating point a row with an infinite logit is shifted entry by
    entry as well: the row [1; -inf; 2] becomes [-1; -inf; 0]. *)
Example binary32_shift_keeps_infinity (exp32 log32 : spec_float → spec_float) :
  stabilize (H:=binary32_scalar exp32 log32)
    [[S754_finite false 8388608 (-23); S754_infinity true;
      S754_finite false 8388608 (-22)]]
  = Ok [[S754_finite true 8388608 (-23); S754_infinity true;
         S754_zero false]].
Proof. reflexivity. Qed.

(** ** Lines 95-96: the scale of the loss *)

Section loss_scale.
Context {A : Type} `{Scalar A}.

(** What a successful run of lines 77-96 returns, and what it returns
    under another base temperature. *)
Lemma compute_loss_inv (self : SupConLoss A) (fr : logits_frame A)
    (logits : matrix A) (loc : locals A) :
  compute_loss self fr logits = Ok loc →
  is_zero (base_temperature self) = false ∧
  length (l_mean_log_prob_pos loc) = anchor_count fr * batch_size fr ∧
  l_loss loc
  = (let loss :=
       fmul (fneg (fdiv (temperature self) (base_temperature self)))
         <$> l_mean_log_prob_pos loc in
     fdiv (fsum loss) (of_nat (length loss))) ∧
  ∀ self' : SupConLoss A,
    is_zero (base_temperature self') = false →
    compute_loss self' fr logits
    = Ok (Locals (l_logits_mask loc) (l_mask loc) (l_log_prob loc)
            (l_mean_log_prob_pos loc)
            (let loss :=
               fmul (fneg (fdiv (temperature self') (base_temperature self')))
                 <$> l_mean_log_prob_pos loc in
             fdiv (fsum loss) (of_nat (length loss)))).
Proof.
  unfold compute_loss.
  destruct (build_logits_mask fr (tile_mask fr)) as [lm|]; [|done].
  cbn [mbind result_bind].
  destruct (mul_2 (tile_mask fr) lm) as [mk|]; [|done].
  cbn [mbind result_bind].
  destruct (compute_log_prob logits lm) as [lp|]; [|done].
  cbn [mbind result_bind].
  destruct (mul_2 mk lp) as [w|]; [|done]. cbn [mbind result_bind].
  destruct (div_1 (sum_1 w) (sum_1 mk)) as [mlpp|]; [|done].
  cbn [mbind result_bind]. unfold py_div.
  destruct (is_zero (base_temperature self)); [done|].
  cbn [mbind result_bind]. unfold view_2. rewrite length_fmap.
  destruct (length mlpp =? anchor_count fr * batch_size fr) eqn:Hlen; [|done].
  apply Nat.eqb_eq in Hlen. cbn [mbind result_bind]. intros [= <-].
  cbn [l_loss l_mask l_logits_mask l_log_prob l_mean_log_prob_pos].
  assert (Hmean : ∀ l : list A, length l = anchor_count fr * batch_size fr →
            mean ((λ i, take (batch_size fr) (drop (i * batch_size fr) l))
                    <$> seq 0 (anchor_count fr))
            = fdiv (fsum l) (of_nat (length l))).
  { intros l Hl. unfold mean. rewrite concat_view_rows. cbn [Nat.mul].
    by rewrite drop_0, take_ge by lia. }
  split_and!; try done.
  - by rewrite Hmean by by rewrite length_fmap.
  - intros self' ->. cbn [mbind result_bind]. rewrite length_fmap.
    rewrite (proj2 (Nat.eqb_eq _ _) Hlen). cbn [mbind result_bind].
    rewrite Hmean by by rewrite length_fmap. by rewrite length_fmap.
Qed.
End loss_scale.

Section base_temperature.
Open Scope R_scope.

Lemma pr_fsum_scale (c : R) (l : list PR) :
  fsum (fmul (Some c) <$> l) = fmul (Some c) (fsum l).
Proof.
  induction l as [|x l IH].
  - cbn. f_equal. lra.
  - cbn [fmap list_fmap]. rewrite !pr_fsum_cons, IH.
    destruct x as [x|], (fsum l) as [s|]; cbn; try done. f_equal. lra.
Qed.

(** In exact arithmetic the base temperature only rescales the loss:
    whenever [forward] returns a real loss [L] under base temperature
    [bt], it returns [L * bt / bt'] under a non-zero base temperature
    [bt'], for the same temperature, mode and inputs. *)
Theorem base_temperature_rescales (t : PR) (mode : string) (bt bt' L : R)
    (features : tensor PR) (labels : option (list Z))
    (mask : option (matrix PR)) :
  bt' ≠ 0 →
  forward {| temperature := t; contrast_mode := mode;
             base_temperature := Some bt |} features labels mask
  = Ok (Some L) →
  forward {| temperature := t; contrast_mode := mode;
             base_temperature := Some bt' |} features labels mask
  = Ok (Some (L * bt / bt')).
Proof.
  intros Hbt'. unfold forward, forward_locals.
  set (self := {| temperature := t; contrast_mode := mode;
                  base_temperature := Some bt |}).
  set (self' := {| temperature := t; contrast_mode := mode;
                   base_temperature := Some bt' |}).
  assert (compute_logits self' features labels mask
          = compute_logits self features labels mask) as -> by done.
  destruct (compute_logits self features labels mask) as [fr|]; [|done].
  cbn [mbind result_bind].
  destruct (stabilize (anchor_dot_contrast fr)) as [logits|]; [|done].
  cbn [mbind result_bind].
  destruct (compute_loss self fr logits) as [loc|] eqn:Hloc; [|done].
  apply compute_loss_inv in Hloc as (Hbt & _ & Hloss & Hother).
  rewrite (Hother self').
  2:{ cbn. by destruct (Req_dec_T bt' 0). }
  cbn [fmap result_fmap l_loss]. intros [= HL]. f_equal.
  rewrite Hloss in HL. cbn zeta in HL |- *.
  cbn [temperature base_temperature self self'] in HL |- *.
  cbn in Hbt. destruct (Req_dec_T bt 0) as [|Hbt0]; [done|].
  destruct t as [tv|].
  2:{ cbn in HL. destruct (l_mean_log_prob_pos loc) as [|x l]; cbn in HL.
      - destruct (Req_dec_T 0 0) as [_|E]; [done|by destruct E].
      - by destruct x. }
  rewrite pr_div_nonzero in HL |- * by done.
  cbn [fneg PR_scalar pr_lift1] in HL |- *.
  rewrite pr_fsum_scale in HL |- *. rewrite length_fmap in HL |- *.
  destruct (fsum (l_mean_log_prob_pos loc)) as [s|]; [|done].
  cbn in HL |- *.
  destruct (Req_dec_T _ 0) as [|HN]; [done|].
  injection HL as <-. f_equal. field. done.
Qed.
End base_temperature.

(** Evaluates a call on concrete reals: unfolds everything but the real
    operations, then decides the comparisons that are left. *)
Ltac pr_evaluate :=
  cbv -[Req_dec_T Rlt_dec Rplus Rmult Rminus Rdiv Ropp Rinv exp ln Rmax IZR INR];
  repeat match goal with
         | |- context [Req_dec_T ?a ?b] =>
             destruct (Req_dec_T a b);
             try lra; try (exfalso; cbn in *; lra)
         | |- context [Rlt_dec ?a ?b] =>
             destruct (Rlt_dec a b) as [?|Hn];
             [|exfalso; apply Hn;
               repeat match goal with
                      | |- context [exp ?x] =>
                          lazymatch goal with
                          | _ : (0 < exp x)%R |- _ => fail
                          | _ => pose proof (exp_pos x)
                          end
                      end; lra]
         end.

(** Three views of one sample with equal features, mode 'one': the
    anchor has two positives among two contrasts and the loss is
    [ln 2]; a base temperature of 2 halves it. *)
Lemma base_temperature_rescales_witness :
  forward (A:=PR)
    {| temperature := Some 1%R; contrast_mode := "one";
       base_temperature := Some 1%R |}
    (Tensor [1; 3; 1] [Some 1%R; Some 1%R; Some 1%R]) None None
  = Ok (Some (ln 2)) ∧
  ln 2 ≠ 0%R ∧
  forward (A:=PR)
    {| temperature := Some 1%R; contrast_mode := "one";
       base_temperature := Some 2%R |}
    (Tensor [1; 3; 1] [Some 1%R; Some 1%R; Some 1%R]) None None
  = Ok (Some (ln 2 * 1 / 2)%R).
Proof.
  assert (forward (A:=PR)
            {| temperature := Some 1%R; contrast_mode := "one";
               base_temperature := Some 1%R |}
            (Tensor [1; 3; 1] [Some 1%R; Some 1%R; Some 1%R]) None None
          = Ok (Some (ln 2))) as HL.
  { pr_evaluate. do 2 f_equal.
    set (y := ((1 * 1 + 0) / 1)%R).
    replace (Rmax (Rmax y y) y) with y
      by (unfold Rmax; repeat destruct (Rle_dec _ _); lra).
    replace (y - y)%R with 0%R by lra. rewrite exp_0.
    replace (1 * 0 + (1 * 1 + (1 * 1 + 0)))%R with 2%R by lra.
    cbn [INR]. field. }
  split_and!; [exact HL| |].
  - pose proof (ln_increasing 1 2 ltac:(lra) ltac:(lra)) as Hln.
    rewrite ln_1 in Hln. lra.
  - apply (base_temperature_rescales (Some 1%R) "one" 1 2 (ln 2));
      [lra|exact HL].
Defined.

(** ** Lines 69-71: a zero temperature *)

Section zero_temperature.
Open Scope R_scope.

Lemma pr_lift2_None_r (f : R → R → R) (x : PR) : pr_lift2 f x None = None.
Proof. by destruct x. Qed.

Lemma pr_shift_row_None (l : list PR) :
  Forall (λ x, x = None) l → Forall (λ x, x = None) (shift_row l).
Proof.
  intros Hl. unfold shift_row. apply Forall_fmap.
  eapply Forall_impl; [exact Hl|]. by intros x ->.
Qed.

Lemma pr_row_log_prob_None (l lm : list PR) :
  Forall (λ x, x = None) l → Forall (λ x, x = None) (row_log_prob l lm).
Proof.
  intros Hl. unfold row_log_prob. apply Forall_fmap.
  eapply Forall_impl; [exact Hl|]. by intros x ->.
Qed.

Lemma pr_weighted_None (mk lp : list PR) :
  Forall (λ x, x = None) lp → (1 ≤ length lp)%nat → length mk = length lp →
  fsum (zip_with fmul mk lp) = None.
Proof.
  intros Hlp Hlen Hmk.
  destruct lp as [|y lp]; [cbn in Hlen; lia|].
  destruct mk as [|x mk]; [done|].
  apply Forall_cons in Hlp as [-> _]. cbn [zip_with].
  rewrite pr_fsum_cons. by destruct x.
Qed.

(** In exact arithmetic a zero temperature does not raise: for a call
    within the input contract, with a known mode and a non-zero base
    temperature, every logit is non-finite and [forward] returns a
    non-finite loss. *)
Theorem zero_temperature_nonfinite (mode : string) (bt : PR)
    (features : tensor PR) (labels : option (list Z))
    (mask : option (matrix PR)) (B V : nat) :
  well_formed features labels mask B V → valid_mode mode →
  is_zero bt = false →
  forward {| temperature := Some 0; contrast_mode := mode;
             base_temperature := bt |} features labels mask
  = Ok None.
Proof.
  intros Hwf Hmode Hbt.
  set (self := {| temperature := Some 0; contrast_mode := mode;
                  base_temperature := bt |}).
  destruct (forward_locals_same self features labels mask B V Hwf Hmode Hbt)
    as (fr & lm & Hfr & Hlm & Hac & Hrun).
  cbn zeta in Hrun. destruct Hrun as (Hmask & Hlp & Hlen & Hrun).
  unfold forward. rewrite Hrun. cbn [fmap result_fmap l_loss]. f_equal.
  destruct (compute_logits_frame _ _ _ _ _ Hfr) as (_ & _ & Hadc).
  set (logits := shift_row <$> anchor_dot_contrast fr) in *.
  set (pos := zip_with (zip_with fmul) (tile_mask fr) lm) in *.
  set (log_prob := zip_with row_log_prob logits lm) in *.
  destruct Hwf as (_ & _ & _ & HB1 & HV1 & _).
  assert (1 ≤ anchor_count fr * B)%nat as HN by nia.
  assert (1 ≤ V * B)%nat as HM by nia.
  destruct (lookup_lt_is_Some_2 pos 0) as [mk Hmk].
  { destruct Hmask as [-> _]. lia. }
  destruct (lookup_lt_is_Some_2 log_prob 0) as [lp Hlp0].
  { destruct Hlp as [-> _]. lia. }
  assert (Forall (λ x, x = None) lp) as Hnone.
  { unfold log_prob in Hlp0.
    apply lookup_zip_with_Some in Hlp0 as (l & lmrow & -> & Hl & _).
    apply pr_row_log_prob_None. unfold logits in Hl.
    rewrite list_lookup_fmap in Hl.
    destruct (anchor_dot_contrast fr !! 0%nat) as [row|] eqn:Hrow; [|done].
    injection Hl as <-. apply pr_shift_row_None.
    rewrite Hadc in Hrow. unfold div_scalar in Hrow.
    rewrite list_lookup_fmap in Hrow.
    destruct (matmul_T _ _ !! 0%nat) as [r|]; [|done].
    injection Hrow as <-. apply Forall_fmap, Forall_forall.
    intros x _. apply pr_div_zero. }
  set (mlpp := zip_with fdiv (fsum <$> zip_with (zip_with fmul) pos log_prob)
                        (fsum <$> pos)) in *.
  assert (mlpp !! 0%nat = Some None) as Hm0.
  { unfold mlpp.
    rewrite lookup_zip_with, !list_lookup_fmap, lookup_zip_with, Hmk, Hlp0.
    cbn [mbind option_bind fmap option_fmap option_map].
    rewrite pr_weighted_None; [done|done|..].
    - rewrite (has_shape_lookup _ _ _ _ _ Hlp Hlp0). lia.
    - rewrite (has_shape_lookup _ _ _ _ _ Hlp Hlp0).
      by rewrite (has_shape_lookup _ _ _ _ _ Hmask Hmk). }
  rewrite (pr_fsum_None _ 0); [done|].
  rewrite list_lookup_fmap, Hm0. cbn [fmap option_fmap option_map].
  f_equal. apply (pr_lift2_None_r Rmult).
Qed.
End zero_temperature.

Lemma zero_temperature_nonfinite_witness :
  forward (A:=PR)
    {| temperature := Some 0%R; contrast_mode := "all";
       base_temperature := Some 1%R |}
    (Tensor [2; 2; 1] [Some 1%R; Some 2%R; Some 3%R; Some 4%R])
    (Some [1%Z; 1%Z]) None
  = Ok None.
Proof.
  apply (zero_temperature_nonfinite "all" (Some 1%R) _ _ _ 2 2).
  - unfold well_formed. cbn. split_and!; (lia || done).
  - by right.
  - cbn. destruct (Req_dec_T 1 0) as [E|_]; [lra|done].
Defined.

(** ** Mode 'one' computes the first rows of mode 'all' *)

Lemma matrix_ext {X} (a b : matrix X) r c :
  has_shape a r c → has_shape b r c →
  (∀ i j, i < r → j < c → entry a i j = entry b i j) → a = b.
Proof.
  intros [Har Hac] [Hbr Hbc] Hab. apply list_eq. intros i.
  destruct (decide (i < r)) as [Hi|Hi].
  2:{ rewrite !lookup_ge_None_2; [done|lia..]. }
  destruct (lookup_lt_is_Some_2 a i) as [ra Hra]; [lia|].
  destruct (lookup_lt_is_Some_2 b i) as [rb Hrb]; [lia|].
  rewrite Hra, Hrb. f_equal. apply list_eq. intros j.
  pose proof (proj1 (Forall_lookup _ _) Hac _ _ Hra) as Hla.
  pose proof (proj1 (Forall_lookup _ _) Hbc _ _ Hrb) as Hlb.
  cbn in Hla, Hlb.
  destruct (decide (j < c)) as [Hj|Hj].
  - specialize (Hab i j Hi Hj). unfold entry in Hab.
    by rewrite Hra, Hrb in Hab.
  - rewrite !lookup_ge_None_2; [done|lia..].
Qed.

Lemma has_shape_take {X} (m : matrix X) r c n :
  has_shape m r c → n ≤ r → has_shape (take n m) n c.
Proof.
  intros [Hr Hc] Hn. split; [rewrite length_take; lia|by apply Forall_take].
Qed.

Lemma entry_take {X} (m : matrix X) n i j :
  i < n → entry (take n m) i j = entry m i j.
Proof. intros Hi. unfold entry. by rewrite lookup_take_lt. Qed.

Lemma take_repeat_2 {X} (m : matrix X) a b :
  1 ≤ a → take (length m) (repeat_2 m a b) = repeat_2 m 1 b.
Proof.
  intros Ha. unfold repeat_2. destruct a as [|a]; [lia|].
  cbn [replicate concat]. rewrite app_nil_r.
  apply take_app_length'. by rewrite length_fmap.
Qed.

Lemma select_1_take_concat {X} (f : tensor X) :
  1 ≤ dim f 1 → select_1 f 0 = take (dim f 0) (concat (unbind_1 f)).
Proof.
  intros HV. unfold unbind_1. destruct (dim f 1) as [|V]; [lia|].
  cbn [seq fmap list_fmap concat]. symmetry.
  apply take_app_length'. by rewrite length_select_1.
Qed.

Section one_prefix.
Context {A : Type} `{Scalar A}.

(** [forward_locals_same] and [forward_locals_entries] in one. *)
Lemma forward_locals_explicit (self : SupConLoss A) (features : tensor A)
    (labels : option (list Z)) (mask : option (matrix A)) (B V : nat) :
  well_formed features labels mask B V → valid_mode (contrast_mode self) →
  is_zero (base_temperature self) = false →
  ∃ fr lm,
    compute_logits self features labels mask = Ok fr ∧
    batch_size fr = B ∧ contrast_count fr = V ∧
    has_shape (mask_pre fr) B B ∧
    has_shape lm (anchor_count fr * B) (V * B) ∧
    (∀ r c, r < anchor_count fr * B → c < V * B →
       entry lm r c = Some (if r =? c then fzero else fone)) ∧
    let logits : matrix A := shift_row <$> anchor_dot_contrast fr in
    let positives := zip_with (zip_with fmul) (tile_mask fr) lm in
    let log_prob := zip_with row_log_prob logits lm in
    let mean_log_prob_pos :=
      zip_with fdiv (fsum <$> zip_with (zip_with fmul) positives log_prob)
                    (fsum <$> positives) in
    let loss :=
      fmul (fneg (fdiv (temperature self) (base_temperature self)))
        <$> mean_log_prob_pos in
    forward_locals self features labels mask
    = Ok (Locals lm positives log_prob mean_log_prob_pos
            (fdiv (fsum loss) (of_nat (length loss)))).
Proof.
  intros Hwf Hmode Hbt.
  destruct (forward_locals_same self features labels mask B V Hwf Hmode Hbt)
    as (fr & lm & Hfr & Hlm & Hac1 & Hrun).
  cbn zeta in Hrun. destruct Hrun as (_ & _ & _ & Hrun).
  destruct (forward_locals_entries self features labels mask B V
              Hwf Hmode Hbt)
    as (fr' & loc & Hfr' & Hloc & Hbs & Hcc & _ & Hpre & _ & _ & _ & _ & _
        & Hentry).
  rewrite Hfr in Hfr'. injection Hfr' as <-.
  rewrite Hrun in Hloc. injection Hloc as <-. cbn in Hentry.
  by exists fr, lm.
Qed.

(** The anchors of mode 'one' are the first [B] anchors of mode 'all',
    and the rows of [forward] do not depend on one another: for the
    same inputs, temperature and base temperature, [logits_mask], the
    positives, [log_prob] and the mean log-probabilities of mode 'one'
    are the first [B] rows of those of mode 'all'. *)
Theorem mode_one_prefix (t bt : A) (features : tensor A)
    (labels : option (list Z)) (mask : option (matrix A)) (B V : nat) :
  well_formed features labels mask B V → is_zero bt = false →
  ∃ loc1 locA : locals A,
    forward_locals {| temperature := t; contrast_mode := "one";
                      base_temperature := bt |} features labels mask
    = Ok loc1 ∧
    forward_locals {| temperature := t; contrast_mode := "all";
                      base_temperature := bt |} features labels mask
    = Ok locA ∧
    l_logits_mask loc1 = take B (l_logits_mask locA) ∧
    l_mask loc1 = take B (l_mask locA) ∧
    l_log_prob loc1 = take B (l_log_prob locA) ∧
    l_mean_log_prob_pos loc1 = take B (l_mean_log_prob_pos locA).
Proof.
  intros Hwf Hbt.
  set (one := {| temperature := t; contrast_mode := "one";
                 base_temperature := bt |}).
  set (all := {| temperature := t; contrast_mode := "all";
                 base_temperature := bt |}).
  destruct (forward_locals_explicit one features labels mask B V Hwf)
    as (fr1 & lm1 & Hfr1 & Hbs1 & Hcc1 & Hpre1 & Hlm1 & Hent1 & Hrun1);
    [by left|done|].
  destruct (forward_locals_explicit all features labels mask B V Hwf)
    as (frA & lmA & HfrA & HbsA & HccA & HpreA & HlmA & HentA & HrunA);
    [by right|done|].
  cbn zeta in Hrun1, HrunA.
  pose proof (compute_logits_inv _ _ _ _ _ Hfr1)
    as (Hr & Hfl & _ & _ & _ & Hm1 & _ & Hac1 & _).
  pose proof (compute_logits_inv _ _ _ _ _ HfrA)
    as (_ & _ & _ & _ & _ & HmA & _ & HacA & _).
  destruct (compute_logits_frame _ _ _ _ _ Hfr1) as (Hcf1 & Haf1 & Hadc1).
  destruct (compute_logits_frame _ _ _ _ _ HfrA) as (HcfA & HafA & HadcA).
  cbn in Hac1, HacA, Haf1, HafA, Hadc1, HadcA.
  destruct Hwf as (_ & HB & HV & HB1 & HV1 & _).
  rewrite HV in Hac1, HacA.
  rewrite Hm1 in HmA. injection HmA as Hpre.
  assert (Haf : anchor_feature fr1 = take B (anchor_feature frA)).
  { rewrite Haf1, HafA, <- HB, <- (flatten_dim_0 features) by done.
    apply select_1_take_concat. rewrite flatten_dim_1 by done. lia. }
  assert (Hadc : anchor_dot_contrast fr1 = take B (anchor_dot_contrast frA)).
  { rewrite Hadc1, HadcA, Hcf1, HcfA, Haf, HafA.
    unfold div_scalar, matmul_T. by rewrite !fmap_take. }
  assert (Htile : tile_mask fr1 = take B (tile_mask frA)).
  { unfold tile_mask. rewrite Hac1, HacA, Hcc1, HccA, <- Hpre.
    destruct Hpre1 as [<- _]. symmetry. by apply take_repeat_2. }
  assert (Hlm : lm1 = take B lmA).
  { rewrite Hac1, Nat.mul_1_l in Hlm1, Hent1. rewrite HacA in HlmA, HentA.
    apply (matrix_ext _ _ B (V * B)); [done| |].
    - apply (has_shape_take _ (V * B)); [done|]. destruct V; [lia|cbn; lia].
    - intros i j Hi Hj.
      assert (i < V * B) as Hi' by (destruct V; [lia|cbn; lia]).
      rewrite entry_take by done. rewrite Hent1 by done.
      by rewrite HentA. }
  eexists _, _. split; [exact Hrun1|]. split; [exact HrunA|].
  cbn [l_logits_mask l_mask l_log_prob l_mean_log_prob_pos].
  rewrite Htile, Hlm, Hadc.
  assert (Hpos : zip_with (zip_with fmul) (take B (tile_mask frA)) (take B lmA)
                 = take B (zip_with (zip_with fmul) (tile_mask frA) lmA))
    by by rewrite zip_with_take.
  assert (Hlp : zip_with row_log_prob
                  (shift_row <$> take B (anchor_dot_contrast frA)) (take B lmA)
                = take B (zip_with row_log_prob
                            (shift_row <$> anchor_dot_contrast frA) lmA))
    by by rewrite fmap_take, zip_with_take.
  rewrite Hpos, Hlp. split_and!; try done.
  set (P := zip_with (zip_with fmul) (tile_mask frA) lmA).
  set (L := zip_with row_log_prob (shift_row <$> anchor_dot_contrast frA) lmA).
  by rewrite (zip_with_take fdiv), <- !fmap_take, (zip_with_take _ B P L).
Qed.
End one_prefix.

Lemma mode_one_prefix_witness :
  ∃ loc1 locA : locals PR,
    forward_locals {| temperature := Some 1%R; contrast_mode := "one";
                      base_temperature := Some 1%R |}
      (Tensor [2; 2; 1] [Some 1%R; Some 2%R; Some 3%R; Some 4%R])
      (Some [0%Z; 0%Z]) None = Ok loc1 ∧
    forward_locals {| temperature := Some 1%R; contrast_mode := "all";
                      base_temperature := Some 1%R |}
      (Tensor [2; 2; 1] [Some 1%R; Some 2%R; Some 3%R; Some 4%R])
      (Some [0%Z; 0%Z]) None = Ok locA ∧
    l_mean_log_prob_pos loc1 = take 2 (l_mean_log_prob_pos locA).
Proof.
  destruct (mode_one_prefix (A:=PR) (Some 1%R) (Some 1%R)
              (Tensor [2; 2; 1] [Some 1%R; Some 2%R; Some 3%R; Some 4%R])
              (Some [0%Z; 0%Z]) None 2 2)
    as (loc1 & locA & H1 & HA & _ & _ & _ & Hm).
  - unfold well_formed. cbn. split_and!; (lia || done).
  - cbn. destruct (Req_dec_T 1 0) as [E|_]; [lra|done].
  - by exists loc1, locA.
Defined.

(** ** A mask with too few rows *)

Section small_mask.
Context {A : Type} `{Scalar A}.

Lemma scatter_1_short {X} (src : matrix X) (index : matrix nat) v :
  length src < length index → scatter_1 src index v = Err TorchError.
Proof.
  revert src. induction index as [|idx index IH]; intros src Hlen;
    [cbn in Hlen; lia|].
  destruct src as [|row src]; [done|]. cbn [scatter_1].
  destruct (scatter_row row idx v) as [row'|e] eqn:Hrow.
  - cbn [mbind result_bind]. rewrite IH by (cbn in Hlen; lia). done.
  - cbn. f_equal.
    exact (raises_only_scatter_row (λ e, e = TorchError) _ _ _ eq_refl _ Hrow).
Qed.

Lemma length_repeat_2 {X} (m : matrix X) a b :
  length (repeat_2 m a b) = a * length m.
Proof.
  unfold repeat_2. rewrite (length_concat_const _ (length m)).
  - by rewrite length_replicate.
  - apply Forall_forall. intros x [-> _]%elem_of_replicate.
    by rewrite length_fmap.
Qed.

(** [forward] does not check the shape of an explicit mask.  A mask
    with fewer rows than the batch has samples gets past the checks of
    lines 38-66 and is refused by torch (by the scatter of line 79 at the
    latest), whatever its entries. *)
Theorem mask_too_few_rows (self : SupConLoss A) (features : tensor A)
    (m : matrix A) :
  3 ≤ length (shape features) → flattens features →
  valid_mode (contrast_mode self) →
  length m < dim features 0 →
  forward self features None (Some m) = Err TorchError.
Proof.
  intros Hr Hfl Hmode Hm.
  destruct (decide (dim features 1 = 0)) as [HV|HV].
  { by apply forward_no_views. }
  unfold forward, forward_locals.
  destruct (compute_logits self features None (Some m)) as [fr|e] eqn:Hfr.
  2:{ exfalso. rewrite compute_logits_flat in Hfr by done. cbn in Hfr.
      rewrite (proj2 (Nat.eqb_neq _ _) HV) in Hfr.
      by destruct Hmode as [Hmo|Hmo]; rewrite Hmo in Hfr. }
  cbn [mbind result_bind].
  pose proof (compute_logits_inv _ _ _ _ _ Hfr)
    as (_ & _ & Hbs & Hcc & _ & Hpre & _ & Hac & _).
  cbn in Hpre. injection Hpre as Hpre.
  destruct (stabilize (anchor_dot_contrast fr)) as [logits|e] eqn:Hs.
  2:{ cbn. f_equal.
      exact (raises_only_stabilize (λ e, e = TorchError) _ eq_refl _ Hs). }
  cbn [mbind result_bind]. unfold compute_loss, build_logits_mask.
  rewrite scatter_1_short; [done|].
  unfold ones_like, view_col, arange, tile_mask.
  rewrite !length_fmap, length_seq, length_repeat_2, <- Hpre, Hbs.
  assert (1 ≤ anchor_count fr) by (rewrite Hac; case_bool_decide; lia).
  nia.
Qed.
End small_mask.

Lemma mask_too_few_rows_witness :
  forward (A:=PR)
    {| temperature := Some 1%R; contrast_mode := "all";
       base_temperature := Some 1%R |}
    (Tensor [2; 2; 1] [Some 1%R; Some 2%R; Some 3%R; Some 4%R])
    None (Some [[Some 1%R; Some 1%R]])
  = Err TorchError.
Proof.
  apply mask_too_few_rows; [cbn; lia|left; cbn; lia|by right|cbn; lia].
Defined.

(** ** Two views give every anchor a positive *)

Section two_views.
Open Scope R_scope.

(** The masks that lines 47-53 build have ones on the diagonal. *)
Lemma pr_resolved_mask_diagonal (B : nat) (labels : option (list Z))
    (mask : option (matrix PR)) (m0 : matrix PR) :
  resolve_mask B labels mask = Ok m0 →
  match mask with Some m => positive_diagonal B m | None => True end →
  positive_diagonal B m0.
Proof.
  intros Hm0 Hmask.
  pose proof (resolve_mask_Ok_inv _ _ _ _ Hm0) as Hok.
  destruct labels as [l|], mask as [m|]; try done.
  - cbn in Hok. cbn in Hm0. unfold view_col at 1 in Hm0.
    rewrite length_fmap, Hok, Nat.eqb_refl in Hm0. cbn in Hm0.
    rewrite eq_float_labels in Hm0. injection Hm0 as <-.
    split.
    + intros i j Hi Hj. rewrite entry_same_class.
      destruct (lookup_lt_is_Some_2 l i) as [li ->]; [lia|].
      destruct (lookup_lt_is_Some_2 l j) as [lj ->]; [lia|]. cbn.
      destruct (li =? lj)%Z; eexists; (split; [reflexivity|lra]).
    + intros i Hi. rewrite entry_same_class.
      destruct (lookup_lt_is_Some_2 l i) as [li ->]; [lia|]. cbn.
      rewrite Z.eqb_refl. eexists. split; [reflexivity|lra].
  - cbn in Hm0. by injection Hm0 as <-.
  - cbn in Hm0. injection Hm0 as <-. split.
    + intros i j Hi Hj. rewrite entry_eye by done.
      destruct (i =? j)%nat; eexists; (split; [reflexivity|lra]).
    + intros i Hi. rewrite entry_eye, Nat.eqb_refl by done.
      eexists. split; [reflexivity|lra].
Qed.

(** With labels, with a mask whose diagonal is positive, or with
    neither, two views or more give every anchor a positive: line 85
    removes the anchor itself from its row and leaves the other views
    of the same sample. *)
Theorem two_views_positives (self : SupConLoss PR) (features : tensor PR)
    (labels : option (list Z)) (mask : option (matrix PR)) (B V : nat) :
  well_formed features labels mask B V → valid_mode (contrast_mode self) →
  is_zero (base_temperature self) = false →
  (2 ≤ V)%nat →
  match mask with Some m => positive_diagonal B m | None => True end →
  ∃ loc : locals PR,
    forward_locals self features labels mask = Ok loc ∧
    Forall has_positive (l_mask loc).
Proof.
  intros Hwf Hmode Hbt HV2 Hmask.
  destruct (forward_locals_explicit self features labels mask B V Hwf Hmode
              Hbt)
    as (fr & lm & Hfr & Hbs & Hcc & Hpre & Hlm & Hent & Hrun).
  cbn zeta in Hrun. eexists. split; [exact Hrun|]. cbn [l_mask].
  pose proof (compute_logits_inv _ _ _ _ _ Hfr)
    as (_ & _ & _ & _ & _ & Hres & _ & Hac & _).
  destruct Hwf as (_ & HB & HV & HB1 & HV1 & _).
  rewrite HB in Hres. rewrite HV in Hac.
  assert (anchor_count fr ≤ V)%nat as Hle
    by (rewrite Hac; case_bool_decide; lia).
  destruct (pr_resolved_mask_diagonal _ _ _ _ Hres Hmask) as [Hnn Hdiag].
  assert (Htile : has_shape (tile_mask fr) (anchor_count fr * B) (V * B)).
  { unfold tile_mask. rewrite Hcc. by apply has_shape_repeat_2. }
  assert (Hval : ∀ r c, (r < anchor_count fr * B)%nat → (c < V * B)%nat →
            ∃ b : R,
              entry (mask_pre fr) (r mod B) (c mod B) = Some (Some b) ∧
              entry (zip_with (zip_with fmul) (tile_mask fr) lm) r c
              = Some (Some (b * (if (r =? c)%nat then 0 else 1)))).
  { intros r c Hr Hc.
    destruct (tiled_positive_entry fr lm B V r c) as (m & Hm & _ & Hp);
      [done|done|lia|done|done|by apply Hent|].
    destruct (Hnn (r mod B) (c mod B)%nat) as (b & Hb & _);
      [apply Nat.mod_upper_bound; lia..|].
    rewrite Hb in Hm. injection Hm as <-. exists b. split; [done|].
    rewrite Hp. by destruct (r =? c)%nat. }
  apply Forall_lookup. intros r row Hrow.
  pose proof Hrow as Hrow'.
  apply lookup_zip_with_Some in Hrow' as (trow & lrow & -> & Htrow & Hlrow).
  assert (r < anchor_count fr * B)%nat as Hr.
  { apply lookup_lt_Some in Htrow. by destruct Htile as [<- _]. }
  assert (Hlen : length (zip_with fmul trow lrow) = (V * B)%nat).
  { rewrite length_zip_with, (has_shape_lookup _ _ _ _ _ Htile Htrow),
      (has_shape_lookup _ _ _ _ _ Hlm Hlrow). lia. }
  split.
  - apply Forall_lookup. intros c x Hx.
    assert (c < V * B)%nat as Hc
      by (apply lookup_lt_Some in Hx; by rewrite Hlen in Hx).
    destruct (Hval r c Hr Hc) as (b & Hb & He).
    destruct (Hnn (r mod B) (c mod B)%nat) as (b' & Hb' & Hb0);
      [apply Nat.mod_upper_bound; lia..|].
    rewrite Hb in Hb'. injection Hb' as <-.
    unfold entry in He. rewrite Hrow in He. cbn [mbind option_bind] in He.
    rewrite Hx in He. injection He as ->.
    eexists. split; [reflexivity|]. destruct (r =? c)%nat; nra.
  - set (c := if decide (r < B)%nat then (r + B)%nat else (r - B)%nat).
    assert (c < V * B ∧ c ≠ r ∧ r mod B = c mod B)%nat as (Hc & Hne & Hmod).
    { unfold c. destruct (decide (r < B)%nat) as [Hlt|Hge].
      - split_and!; [nia|lia|].
        replace (r + B)%nat with (r + 1 * B)%nat by lia.
        by rewrite Nat.Div0.mod_add.
      - split_and!; [nia|lia|].
        replace r with (r - B + 1 * B)%nat at 1 by lia.
        by rewrite Nat.Div0.mod_add. }
    destruct (lookup_lt_is_Some_2 (zip_with fmul trow lrow) c) as [x Hx];
      [by rewrite Hlen|].
    apply Exists_exists. exists x. split; [by eapply list_elem_of_lookup_2|].
    destruct (Hval r c Hr Hc) as (b & Hb & He).
    destruct (Hdiag (r mod B)%nat) as (b' & Hb' & Hb0);
      [apply Nat.mod_upper_bound; lia|].
    rewrite <- Hmod, Hb' in Hb. injection Hb as <-.
    unfold entry in He. rewrite Hrow in He. cbn [mbind option_bind] in He.
    rewrite Hx in He. injection He as ->.
    rewrite (proj2 (Nat.eqb_neq r c)) by done.
    eexists. split; [reflexivity|]. lra.
Qed.
End two_views.

Lemma two_views_positives_witness :
  ∃ loc : locals PR,
    forward_locals
      {| temperature := Some 1%R; contrast_mode := "one";
         base_temperature := Some 1%R |}
      (Tensor [2; 2; 1] [Some 1%R; Some 2%R; Some 3%R; Some 4%R])
      None (Some [[Some 1%R; Some 0%R]; [Some 0%R; Some 2%R]]) = Ok loc ∧
    Forall has_positive (l_mask loc).
Proof.
  apply (two_views_positives
           {| temperature := Some 1%R; contrast_mode := "one";
              base_temperature := Some 1%R |}
           (Tensor [2; 2; 1] [Some 1%R; Some 2%R; Some 3%R; Some 4%R])
           None (Some [[Some 1%R; Some 0%R]; [Some 0%R; Some 2%R]]) 2 2).
  - unfold well_formed, has_shape. cbn.
    split_and!; try (lia || done). by repeat constructor.
  - by left.
  - cbn. destruct (Req_dec_T 1 0) as [E|_]; [lra|done].
  - lia.
  - split.
    + intros [|[|i]] [|[|j]] Hi Hj; try lia; cbn;
        eexists; (split; [reflexivity|lra]).
    + intros [|[|i]] Hi; try lia; cbn; eexists; (split; [reflexivity|lra]).
Defined.
